(** * Phase 1 (merge-only) of [defragment_sharded_collection.py]

    A shallow embedding of [main] and of its nested coroutine
    [merge_chunks_on_shard], followed by the properties of the merge
    planner that the specification states.

    Conventions of the embedding.

    - Sizes are whole megabytes, in [Z]: an estimate given with
      [--phase_1_estimated_chunk_size_mb] is parsed with [type=int], the
      [chunksize] setting is a number of megabytes and [math.ceil] returns an
      integer. The source compares such a size with [target_chunk_size * 0.90],
      [* 0.75] and [* 1.10]; on integers below 2^50 these comparisons of
      doubles are the exact ones with the fractions 90/100, 75/100 and
      110/100, which is how they are written here. A run without the option
      takes the default of the parser, the double [64 * 0.40], which is not
      an integer: such a run is not covered.
    - The size that [dataSize] reports is a number of bytes, which the source
      converts with [float] before it divides: [float_of_int] is that
      rounding to the nearest double.
    - Every command a coroutine sends is appended to a trace of [Event]s, in
      program order. The replies of the cluster are given by an oracle that is
      indexed by the length of the trace at the time of the call, so that the
      same command may be answered differently at different times.
    - A Python exception is a value of [PyError]; a coroutine ends in
      [Normal] or in [Raised]. *)

From Stdlib Require Import ZArith Lia Ascii String.
From stdpp Require Import gmap strings list fin_maps.

(** ** Exceptions, versions and gates *)

Inductive PyError : Type :=
| IndexError
| TypeError
| AttributeError
| KeyboardInterrupt
| NotMongosException
| ScriptException (message : string)
| OperationFailure (code : Z)
| ZeroDivisionError
| ConnectionFailure.

(** [c['lastmod']]: a BSON timestamp, ordered by [time] and then [inc]. *)
Record Timestamp : Type := mkTimestamp { time : Z; inc : Z }.

Definition ts_gt (a b : Timestamp) : bool :=
  (time b <? time a)%Z || ((time a =? time b)%Z && (inc b <? inc a)%Z).

(** The two [asyncio.Semaphore]s of [main]. *)
Inductive Gate : Type :=
| sem_at_collection_version
| sem_at_less_than_collection_version.

#[global] Instance Gate_eq_dec : EqDecision Gate.
Proof. solve_decision. Defined.

Definition max_merges_on_shards_at_less_than_collection_version : nat := 1.
Definition max_merges_on_shards_at_collection_version : nat := 8.

Definition capacity (g : Gate) : nat :=
  match g with
  | sem_at_collection_version => max_merges_on_shards_at_collection_version
  | sem_at_less_than_collection_version =>
      max_merges_on_shards_at_less_than_collection_version
  end.

Inductive MergeReply : Type :=
| MergeOk
| MergeRaises (e : PyError).

Inductive DataSizeReply : Type :=
| DataSizeOk (size : Z)
| DataSizeRaises (e : PyError).

(** The shard key pattern, [collections.find_one(...)['key']]. *)
Definition KeyPattern : Type := list (string * Z).

(** The documents of [config.collections] and [config.settings] the script
    reads, with the one field it uses of each. *)
Record CollectionDoc : Type := mkCollectionDoc { key : KeyPattern }.
Record BalancerDoc : Type := mkBalancerDoc { mode : string }.
Record AutosplitDoc : Type := mkAutosplitDoc { enabled : bool }.
Record ChunksizeDoc : Type := mkChunksizeDoc { value : Z }.

Record Args : Type := mkArgs {
  dryrun : bool;
  ns : string;
  phase_1_estimated_chunk_size_mb : Z
}.

(** ** Size arithmetic *)

(** [x <= target * (p / 100)] and its strict variants. *)
Definition le_pct (x target p : Z) : bool := (100 * x <=? p * target)%Z.
Definition lt_pct (x target p : Z) : bool := (100 * x <? p * target)%Z.
Definition gt_pct (x target p : Z) : bool := (p * target <? 100 * x)%Z.

(** [float(size)]: [size] itself when it has at most 53 bits, and otherwise
    the nearest integer with 53 significant bits, the even one of two that
    are equally near. From 2^53 up every double is an integer. *)
Definition float_of_int (size : Z) : Z :=
  let bits := (Z.log2 (Z.abs size) + 1)%Z in
  if (bits <=? 53)%Z then size
  else
    let ulp := (2 ^ (bits - 53))%Z in
    let q := (Z.abs size / ulp)%Z in
    let r := (Z.abs size mod ulp)%Z in
    let up := (ulp <? 2 * r)%Z || ((2 * r =? ulp)%Z && Z.odd q) in
    (Z.sgn size * ((if up then q + 1 else q) * ulp))%Z.

(** [math.ceil(float(size) / (1024.0 * 1024.0))]; the division of a double
    by a power of two is exact. *)
Definition ceil_mb (size : Z) : Z :=
  (- ((- float_of_int size) / (1024 * 1024)))%Z.

(** [args.ns.split('.', 1)]: [None] when there is no dot, in which case
    indexing the result with [1] raises [IndexError]. *)
Fixpoint split_ns (s : string) : option (string * string) :=
  match s with
  | EmptyString => None
  | String a rest =>
      if Ascii.eqb a "."%char then Some (EmptyString, rest)
      else match split_ns rest with
           | Some (db, coll) => Some (String a db, coll)
           | None => None
           end
  end.

(** Whether a string has a dot. *)
Fixpoint has_dot (s : string) : bool :=
  match s with
  | EmptyString => false
  | String a rest => Ascii.eqb a "."%char || has_dot rest
  end.

Section Defragment.

Context {Key : Type} `{EqDecision Key}.

(** ** Data model *)

(** A document of [config.chunks]. *)
Record Chunk : Type := mkChunk {
  chunk_min : Key;
  chunk_max : Key;
  chunk_shard : string;
  chunk_lastmod : Timestamp
}.

(** A value of the dictionary [shard_to_chunks]. *)
Record ShardEntry : Type := mkShardEntry {
  chunks : list Chunk;
  num_merges_performed : nat
}.

Inductive Output : Type :=
| MsgCollection (n : string) (pattern : KeyPattern) (num_chunks : nat)
| MsgDryRun
| MsgNotMongos
| MsgProgress (num_chunks_processed num_chunks : nat)
| MsgInitialisationCompleted (num_chunks_processed num_shards : nat)
| MsgCollectionVersion (v : option Timestamp)
| MsgShardVersion (shard : string) (v : Timestamp)
| MsgWithoutMajorVersionBump
| MsgWithMajorVersionBump
| MsgMerging (count : nat) (shard : string) (n : string) (lo hi : Key)
| MsgLockWarning (lo hi : Key).

Inductive Query : Type :=
| FindCollection (n : string)
| CountChunks (n : string)
| FindSetting (id : string)
| FindChunks (n : string).

Inductive Event : Type :=
| Print (line : Output)
| Read (q : Query)
| CheckIsMongos
| Prompt
| Acquire (g : Gate)
| Release (g : Gate)
| Command_dataSize (db n : string) (pattern : KeyPattern) (lo hi : Key)
| Command_mergeChunks (n : string) (lo hi : Key) (reply : MergeReply).

(** What [cluster.client[db].command] and [cluster.adminDb.command] answer
    to one coroutine; the first argument is the length of its trace. *)
Record Cluster : Type := mkCluster {
  dataSize : nat -> Key -> Key -> DataSizeReply;
  mergeChunks : nat -> Key -> Key -> MergeReply
}.

(** ** Initialisation: the scan of [config.chunks] *)

Record Snapshot : Type := mkSnapshot {
  shard_to_chunks : gmap string ShardEntry;
  collectionVersion : option Timestamp;
  num_chunks_processed : nat
}.

Definition empty_snapshot : Snapshot :=
  {| shard_to_chunks := ∅; collectionVersion := None; num_chunks_processed := 0 |}.

Definition append_chunk (c : Chunk) (e : ShardEntry) : ShardEntry :=
  {| chunks := chunks e ++ [c]; num_merges_performed := num_merges_performed e |}.

(** The body of [async for c in cluster.configDb.chunks.find(...)]. *)
Definition scan_chunk (s : Snapshot) (c : Chunk) : Snapshot :=
  let shardId := chunk_shard c in
  let v0 := match collectionVersion s with
            | None => chunk_lastmod c
            | Some v => v
            end in
  let v1 := if ts_gt (chunk_lastmod c) v0 then chunk_lastmod c else v0 in
  let m := match shard_to_chunks s !! shardId with
           | None => <[shardId := {| chunks := []; num_merges_performed := 0 |}]>
                       (shard_to_chunks s)
           | Some _ => shard_to_chunks s
           end in
  {| shard_to_chunks := alter (append_chunk c) shardId m;
     collectionVersion := Some v1;
     num_chunks_processed := S (num_chunks_processed s) |}.

Definition load_snapshot (cs : list Chunk) : Snapshot :=
  fold_left scan_chunk cs empty_snapshot.

(** ** The coroutine [merge_chunks_on_shard] *)

Section Worker.

Variable args : Args.
Variable db : string.
Variable shardKeyPattern : KeyPattern.
Variable target_chunk_size : Z.
Variable cluster : Cluster.
Variable shard : string.

(** The local variables of the coroutine, the entry of [shard_to_chunks] it
    updates, and what it has sent so far. *)
Record Worker : Type := mkWorker {
  consecutive_chunks : list Chunk;
  estimated_size_of_consecutive_chunks : Z;
  num_lock_busy_errors_encountered : nat;
  shard_is_at_collection_version : bool;
  shard_entry : ShardEntry;
  trace : list Event
}.

Inductive Flow : Type :=
| Normal (w : Worker)
| Raised (e : PyError) (w : Worker).

Definition final (f : Flow) : Worker :=
  match f with Normal w => w | Raised _ w => w end.

Definition emit (ev : Event) (w : Worker) : Worker :=
  {| consecutive_chunks := consecutive_chunks w;
     estimated_size_of_consecutive_chunks := estimated_size_of_consecutive_chunks w;
     num_lock_busy_errors_encountered := num_lock_busy_errors_encountered w;
     shard_is_at_collection_version := shard_is_at_collection_version w;
     shard_entry := shard_entry w;
     trace := trace w ++ [ev] |}.

Definition set_candidate (cs : list Chunk) (est : Z) (w : Worker) : Worker :=
  {| consecutive_chunks := cs;
     estimated_size_of_consecutive_chunks := est;
     num_lock_busy_errors_encountered := num_lock_busy_errors_encountered w;
     shard_is_at_collection_version := shard_is_at_collection_version w;
     shard_entry := shard_entry w;
     trace := trace w |}.

(** [num_lock_busy_errors_encountered += 1] *)
Definition count_lock_busy (w : Worker) : Worker :=
  {| consecutive_chunks := consecutive_chunks w;
     estimated_size_of_consecutive_chunks := estimated_size_of_consecutive_chunks w;
     num_lock_busy_errors_encountered := S (num_lock_busy_errors_encountered w);
     shard_is_at_collection_version := shard_is_at_collection_version w;
     shard_entry := shard_entry w;
     trace := trace w |}.

(** [shard_entry['num_merges_performed'] += 1] and
    [shard_is_at_collection_version = True] *)
Definition count_merge (w : Worker) : Worker :=
  {| consecutive_chunks := consecutive_chunks w;
     estimated_size_of_consecutive_chunks := estimated_size_of_consecutive_chunks w;
     num_lock_busy_errors_encountered := num_lock_busy_errors_encountered w;
     shard_is_at_collection_version := true;
     shard_entry :=
       {| chunks := chunks (shard_entry w);
          num_merges_performed := S (num_merges_performed (shard_entry w)) |};
     trace := trace w |}.

(** [consecutive_chunks = [c]] with the estimate of one chunk. *)
Definition restart_with (c : Chunk) (w : Worker) : Worker :=
  set_candidate [c] (phase_1_estimated_chunk_size_mb args) w.

(** [consecutive_chunks.append(c)] and the estimate of one more chunk. *)
Definition extend_with (c : Chunk) (w : Worker) : Worker :=
  set_candidate (consecutive_chunks w ++ [c])
    (estimated_size_of_consecutive_chunks w + phase_1_estimated_chunk_size_mb args)%Z
    w.

(** [[consecutive_chunks[0]['min'], consecutive_chunks[-1]['max']]]; both
    subscripts raise [IndexError] on an empty list. *)
Definition bounds (cs : list Chunk) : option (Key * Key) :=
  match cs with
  | [] => None
  | first :: rest => Some (chunk_min first, chunk_max (List.last rest first))
  end.

(** Lines 192-206: the size of the accumulated range, from the estimate in a
    dry run and from [dataSize] otherwise. *)
Definition measure (lo hi : Key) (w : Worker) : Worker * (PyError + Z) :=
  if dryrun args then (w, inr (estimated_size_of_consecutive_chunks w))
  else
    let w1 := emit (Command_dataSize db (ns args) shardKeyPattern lo hi) w in
    match dataSize cluster (length (trace w)) lo hi with
    | DataSizeOk size => (w1, inr (ceil_mb size))
    | DataSizeRaises e => (w1, inl e)
    end.

(** The body of the [async with] block, lines 224-239. *)
Definition perform_merge (lo hi : Key) (w : Worker) : Worker * option PyError :=
  if dryrun args then
    (emit (Print (MsgMerging (length (consecutive_chunks w)) shard (ns args) lo hi)) w,
     None)
  else
    let reply := mergeChunks cluster (length (trace w)) lo hi in
    let w1 := emit (Command_mergeChunks (ns args) lo hi reply) w in
    match reply with
    | MergeOk => (w1, None)
    | MergeRaises (OperationFailure code) =>
        if (code =? 46)%Z then
          let w2 := count_lock_busy w1 in
          if (num_lock_busy_errors_encountered w2 =? 1)%nat
          then (emit (Print (MsgLockWarning lo hi)) w2, None)
          else (w2, None)
        else (w1, Some (OperationFailure code))
    | MergeRaises e => (w1, Some e)
    end.

(** Lines 221-249: the merge under its semaphore and the bookkeeping after
    it. The semaphore is released when the block is left, also by an
    exception. *)
Definition commit (without_size_check : bool) (lo hi : Key) (c : Chunk)
    (w : Worker) : Flow :=
  let gate := if shard_is_at_collection_version w
              then sem_at_collection_version
              else sem_at_less_than_collection_version in
  match perform_merge lo hi (emit (Acquire gate) w) with
  | (w1, Some e) => Raised e (emit (Release gate) w1)
  | (w1, None) =>
      let w2 := emit (Release gate) w1 in
      let w3 := if without_size_check
                then restart_with c w2
                else set_candidate [] 0%Z w2 in
      Normal (count_merge w3)
  end.

(** Lines 177-249, entered with the flag
    [merge_consecutive_chunks_without_size_check] already decided. *)
Definition evaluate (without_size_check : bool) (c : Chunk) (w : Worker) : Flow :=
  if le_pct (estimated_size_of_consecutive_chunks w) target_chunk_size 90
     && negb without_size_check
  then Normal w
  else
    match bounds (consecutive_chunks w) with
    | None => Raised IndexError w
    | Some (lo, hi) =>
        match measure lo hi w with
        | (w1, inl e) => Raised e w1
        | (w1, inr actual_size_of_consecutive_chunks) =>
            if without_size_check then commit true lo hi c w1
            else if lt_pct actual_size_of_consecutive_chunks target_chunk_size 75
            then Normal (set_candidate (consecutive_chunks w1)
                           actual_size_of_consecutive_chunks w1)
            else if gt_pct actual_size_of_consecutive_chunks target_chunk_size 110
            then (* TODO of the source: the branch is [pass] *)
                 commit false lo hi c w1
            else commit false lo hi c w1
        end
    end.

(** The body of [for c in shard_chunks]. *)
Definition loop_body (w : Worker) (c : Chunk) : Flow :=
  match consecutive_chunks w with
  | [] => Normal (restart_with c w)
  | first :: rest =>
      if bool_decide (chunk_max (List.last rest first) = chunk_min c)
      then evaluate false c (extend_with c w)
      else if bool_decide (length (consecutive_chunks w) = 1%nat)
      then Normal (restart_with c w)
      else evaluate true c w
  end.

Fixpoint run_loop (w : Worker) (cs : list Chunk) : Flow :=
  match cs with
  | [] => Normal w
  | c :: rest =>
      match loop_body w c with
      | Normal w' => run_loop w' rest
      | Raised e w' => Raised e w'
      end
  end.

(** [max(shard_chunks, key=lambda c: c['lastmod'])]: the first chunk among
    those of greatest version. *)
Definition max_by_lastmod (first : Chunk) (rest : list Chunk) : Chunk :=
  fold_left (fun best c =>
               if ts_gt (chunk_lastmod c) (chunk_lastmod best) then c else best)
            rest first.

Definition start (entry : ShardEntry) (at_version : bool) (t : list Event) : Worker :=
  {| consecutive_chunks := [];
     estimated_size_of_consecutive_chunks := 0;
     num_lock_busy_errors_encountered := 0;
     shard_is_at_collection_version := at_version;
     shard_entry := entry;
     trace := t |}.

Definition merge_chunks_on_shard (entry : ShardEntry)
    (collection_version : option Timestamp) : Flow :=
  let shard_chunks := chunks entry in
  if (length shard_chunks <? 2)%nat then Normal (start entry false [])
  else
    match shard_chunks with
    | [] => Raised TypeError (start entry false [])
    | c0 :: rest =>
        let shard_version := chunk_lastmod (max_by_lastmod c0 rest) in
        match collection_version with
        | None => Raised AttributeError (start entry false [])
        | Some v =>
            let at_version := (time shard_version =? time v)%Z in
            run_loop
              (start entry at_version
                 [Print (MsgShardVersion shard shard_version);
                  Print (if at_version then MsgWithoutMajorVersionBump
                         else MsgWithMajorVersionBump)])
              shard_chunks
        end
    end.

End Worker.

(** ** The coroutine [main] *)

(** What the script reads from the cluster before Phase 1, and the view each
    shard's coroutine has of the cluster during it. *)
Record Env : Type := mkEnv {
  collections_find_one : string -> option CollectionDoc;
  chunks_count_documents : string -> nat;
  is_mongos : bool;
  yes_no : bool;
  balancer_doc : option BalancerDoc;
  auto_splitter_doc : option AutosplitDoc;
  chunk_size_doc : option ChunksizeDoc;
  chunks_find : string -> list Chunk;
  cluster_of : string -> Cluster
}.

(** A computation that appends to the trace of [main] and may raise. *)
Definition Script (A : Type) : Type := list Event -> list Event * (PyError + A).

Definition raise {A} (e : PyError) : Script A := fun t => (t, inl e).
Definition tell (ev : Event) : Script unit := fun t => (t ++ [ev], inr tt).

#[global] Instance script_ret : MRet Script := fun A a t => (t, inr a).
#[global] Instance script_bind : MBind Script := fun A B k m t =>
  match m t with
  | (t1, inl e) => (t1, inl e)
  | (t1, inr a) => k a t1
  end.

(** [doc[...]] on the result of [find_one]: subscripting [None] raises
    [TypeError]. *)
Definition subscript {A} (doc : option A) : Script A :=
  match doc with
  | Some d => mret d
  | None => raise TypeError
  end.

Definition when (b : bool) (m : Script unit) : Script unit :=
  if b then m else mret tt.

(** What Phase 1 leaves behind: the snapshot it started from and, for each
    shard, how its coroutine ended. *)
Record Phase1 : Type := mkPhase1 {
  snapshot : Snapshot;
  target : Z;
  workers : gmap string Flow
}.

Definition balancer_message : string := "The balancer must be stopped before running this script.".
Definition auto_splitter_message : string := "The auto-splitter must be disabled before running this script.".
Definition chunk_size_message : string := "The MaxChunkSize must be configured to at least 128 MB before running this script.".

(** Lines 20-38: the namespace, the shard key pattern, and the check that
    the script talks to a mongos; a run that commits asks for confirmation. *)
Definition connect (args : Args) (env : Env) : Script (string * KeyPattern) :=
  (* line 22 *)
  n ← match split_ns (ns args) with
       | Some (db, coll) => mret (db, coll)
       | None => raise IndexError
       end;
  (* line 23 *)
  tell (Read (FindCollection (ns args))) ;;
  coll ← subscript (collections_find_one env (ns args));
  let shardKeyPattern := key coll in
  tell (Read (CountChunks (ns args))) ;;
  let num_chunks := chunks_count_documents env (ns args) in
  tell (Print (MsgCollection (ns args) shardKeyPattern num_chunks)) ;;
  (* lines 28-38 *)
  (if dryrun args then
     tell (Print MsgDryRun) ;;
     tell CheckIsMongos ;;
     when (negb (is_mongos env)) (tell (Print MsgNotMongos))
   else
     tell CheckIsMongos ;;
     (if is_mongos env then mret tt else raise NotMongosException) ;;
     tell Prompt ;;
     if yes_no env then mret tt else raise KeyboardInterrupt) ;;
  mret (fst n, shardKeyPattern).

(** Lines 44-63: the three sanity checks, which a dry run skips, and the
    target chunk size. *)
Definition sanity_checks (args : Args) (env : Env) : Script Z :=
  tell (Read (FindSetting "balancer")) ;;
  (if negb (dryrun args)
      && match balancer_doc env with
         | None => true
         | Some d => negb (String.eqb (mode d) "off")
         end
   then raise (ScriptException balancer_message) else mret tt) ;;
  tell (Read (FindSetting "autosplit")) ;;
  (if negb (dryrun args)
      && match auto_splitter_doc env with
         | None => true
         | Some d => enabled d
         end
   then raise (ScriptException auto_splitter_message) else mret tt) ;;
  tell (Read (FindSetting "chunksize")) ;;
  (if negb (dryrun args)
      && match chunk_size_doc env with
         | None => true
         | Some d => (value d <? 128)%Z
         end
   then raise (ScriptException chunk_size_message) else mret tt) ;;
  size_doc ← subscript (chunk_size_doc env);
  mret (value size_doc).

(** Lines 73-87: the loop over the chunks. After every tenth chunk it prints
    the progress as a share of [num_chunks], the count taken at line 24; the
    division raises when that count is zero. *)
Fixpoint scan (num_chunks : nat) (cs : list Chunk) (s : Snapshot) : Script Snapshot :=
  match cs with
  | [] => mret s
  | c :: rest =>
      let s' := scan_chunk s c in
      (if (num_chunks_processed s' mod 10 =? 0)%nat
       then if (num_chunks =? 0)%nat then raise ZeroDivisionError
            else tell (Print (MsgProgress (num_chunks_processed s') num_chunks))
       else mret tt) ;;
      scan num_chunks rest s'
  end.

(** Lines 70-92: the scan of [config.chunks]. *)
Definition initialise (args : Args) (env : Env) : Script Snapshot :=
  tell (Read (FindChunks (ns args))) ;;
  snap ← scan (chunks_count_documents env (ns args))
           (chunks_find env (ns args)) empty_snapshot;
  tell (Print (MsgInitialisationCompleted (num_chunks_processed snap)
                 (size (shard_to_chunks snap)))) ;;
  tell (Print (MsgCollectionVersion (collectionVersion snap))) ;;
  mret snap.

(** Lines 251-254: one coroutine for each key of [shard_to_chunks]. *)
Definition phase_1 (args : Args) (env : Env) (db : string)
    (shardKeyPattern : KeyPattern) (target_chunk_size : Z) (snap : Snapshot)
    : gmap string Flow :=
  map_imap (fun s entry =>
              Some (merge_chunks_on_shard args db shardKeyPattern
                      target_chunk_size (cluster_of env s) s entry
                      (collectionVersion snap)))
           (shard_to_chunks snap).

Definition main (args : Args) (env : Env) : Script Phase1 :=
  n ← connect args env;
  target_chunk_size ← sanity_checks args env;
  snap ← initialise args env;
  mret {| snapshot := snap;
          target := target_chunk_size;
          workers := phase_1 args env (fst n) (snd n) target_chunk_size snap |}.

(** A computation keeps [P] when it adds only events that satisfy [P]. *)
Definition keeps (P : Event -> Prop) {A} (m : Script A) : Prop :=
  forall t, Forall P t -> Forall P (m t).1.

(** ** What a trace shows *)

(** The semaphores a trace acquires, in order. *)
Definition acquired (t : list Event) : list Gate :=
  omap (fun ev => match ev with Acquire g => Some g | _ => None end) t.


(** The range of a merge: of a [mergeChunks] command, or of the merge a dry
    run prints instead. *)
Definition merge_range (ev : Event) : option (Key * Key) :=
  match ev with
  | Command_mergeChunks _ lo hi _ => Some (lo, hi)
  | Print (MsgMerging _ _ _ lo hi) => Some (lo, hi)
  | _ => None
  end.

Definition merge_ranges (t : list Event) : list (Key * Key) := omap merge_range t.

(** The commands sent to the cluster: [dataSize] and [mergeChunks]. *)
Definition is_command (ev : Event) : bool :=
  match ev with
  | Command_dataSize _ _ _ _ _ | Command_mergeChunks _ _ _ _ => true
  | _ => false
  end.

(** The events of a merge attempt: taking a semaphore, and the merge. *)
Definition is_attempt (ev : Event) : bool :=
  match ev with
  | Acquire _ => true
  | _ => match merge_range ev with Some _ => true | None => false end
  end.

(** Taking the semaphore of the merges that bump the major version. *)
Definition is_bump (ev : Event) : bool :=
  match ev with
  | Acquire sem_at_less_than_collection_version => true
  | _ => false
  end.

(** Once an attempt has begun, the version-bump semaphore is not taken
    again. *)
Fixpoint bump_only_first (t : list Event) : Prop :=
  match t with
  | [] => True
  | ev :: rest =>
      (is_attempt ev = true -> Forall (fun e => is_bump e = false) rest) /\
      bump_only_first rest
  end.

(** [cs[i]['max'] == cs[i+1]['min']] for every [i]. *)
Fixpoint contiguous (cs : list Chunk) : Prop :=
  match cs with
  | a :: (b :: _) as rest => chunk_max a = chunk_min b /\ contiguous rest
  | _ => True
  end.

(** A merge over [lo, hi) is backed by the chunk list [all] of a shard when
    [all] has a run of at least two contiguous chunks that starts at [lo]
    and ends at [hi]. *)
Definition backed_by (all : list Chunk) (range : Key * Key) : Prop :=
  exists before run after,
    all = before ++ run ++ after /\
    2 <= length run /\
    contiguous run /\
    bounds run = Some range.

(** A reply with the code of [LockBusy], which the coroutine tolerates. *)
Definition is_lock_busy_reply (reply : MergeReply) : bool :=
  match reply with
  | MergeRaises (OperationFailure code) => (code =? 46)%Z
  | _ => false
  end.

(** What it is for [f] to be the outcome of committing [candidate] over
    [lo, hi) in an iteration that began in [w], once the trace has become
    [t0]. The semaphore is taken:
    the one of capacity 8 if the shard is at the collection version, the one
    of capacity 1 otherwise. Under it a dry run prints the merge, and a run
    that commits sends [mergeChunks] over [lo, hi), followed by the warning
    if the reply is the first [LockBusy] of the coroutine. The semaphore is
    released. Unless the reply is another exception, which ends the
    coroutine, the coroutine goes on with the candidate [next] and the
    estimate [next_estimate], one more merge counted and the shard at the
    collection version. *)
Definition commits (args : Args) (cluster : Cluster) (shard : string)
    (w : Worker) (candidate : list Chunk) (t0 : list Event) (lo hi : Key)
    (next : list Chunk) (next_estimate : Z) (f : Flow) : Prop :=
  let gate := if shard_is_at_collection_version w
              then sem_at_collection_version
              else sem_at_less_than_collection_version in
  let reply := mergeChunks cluster (length (t0 ++ [Acquire gate])) lo hi in
  trace (final f) =
    t0 ++ [Acquire gate]
       ++ (if dryrun args
           then [Print (MsgMerging (length candidate) shard (ns args) lo hi)]
           else Command_mergeChunks (ns args) lo hi reply
                :: (if is_lock_busy_reply reply
                       && (num_lock_busy_errors_encountered w =? 0)%nat
                    then [Print (MsgLockWarning lo hi)]
                    else []))
       ++ [Release gate] /\
  if dryrun args
     || match reply with MergeOk => true | _ => is_lock_busy_reply reply end
  then exists w',
         f = Normal w' /\
         consecutive_chunks w' = next /\
         estimated_size_of_consecutive_chunks w' = next_estimate /\
         num_merges_performed (shard_entry w') =
           S (num_merges_performed (shard_entry w)) /\
         chunks (shard_entry w') = chunks (shard_entry w) /\
         shard_is_at_collection_version w' = true
  else exists e w',
         reply = MergeRaises e /\
         f = Raised e w' /\
         shard_entry w' = shard_entry w.

(** A [mergeChunks] that was answered with the code of [LockBusy]. *)
Definition is_lock_busy (ev : Event) : bool :=
  match ev with
  | Command_mergeChunks _ _ _ (MergeRaises (OperationFailure code)) =>
      (code =? 46)%Z
  | _ => false
  end.

Definition is_lock_warning (ev : Event) : bool :=
  match ev with
  | Print (MsgLockWarning _ _) => true
  | _ => false
  end.

Definition count_events (f : Event -> bool) (t : list Event) : nat :=
  length (List.filter f t).

(** No chunk begins where the chunk before it ends. *)
Fixpoint scattered (cs : list Chunk) : Prop :=
  match cs with
  | a :: (b :: _) as rest => chunk_max a <> chunk_min b /\ scattered rest
  | _ => True
  end.


(** The merges of [ranges] are over runs of [all] that follow one another
    without overlap. *)
Fixpoint segmented (all : list Chunk) (ranges : list (Key * Key)) : Prop :=
  match ranges with
  | [] => True
  | range :: later =>
      exists before run after,
        all = before ++ run ++ after /\
        2 <= length run /\
        contiguous run /\
        bounds run = Some range /\
        segmented after later
  end.

(** An event that is neither a command nor the announcement of a merge. *)
Definition quiet (ev : Event) : Prop :=
  is_command ev = false /\ merge_range ev = None.

(** ** Invariants of the loop *)

(** A worker that has not yet been moved to the collection version has not
    attempted a merge. *)
Definition fresh (w : Worker) : Prop :=
  shard_is_at_collection_version w = false ->
  Forall (fun ev => is_attempt ev = false) (trace w).

(** The candidate is made of the chunks scanned last, and has no gap. *)
Definition candidate_ok (scanned : list Chunk) (w : Worker) : Prop :=
  (exists before, scanned = before ++ consecutive_chunks w) /\
  contiguous (consecutive_chunks w).

(** The chunks scanned are those consumed by the merges so far, which do not
    overlap, followed by the candidate. *)
Definition consumed_ok (scanned : list Chunk) (w : Worker) : Prop :=
  exists consumed,
    scanned = consumed ++ consecutive_chunks w /\
    contiguous (consecutive_chunks w) /\
    segmented consumed (merge_ranges (trace w)).

(** Every merge of the trace is backed by the chunks scanned so far. *)
Definition merges_backed (scanned : list Chunk) (w : Worker) : Prop :=
  Forall (backed_by scanned) (merge_ranges (trace w)).

End Defragment.

Arguments Chunk Key : clear implicits.
Arguments ShardEntry Key : clear implicits.
Arguments Output Key : clear implicits.
Arguments Event Key : clear implicits.
Arguments Cluster Key : clear implicits.
Arguments Snapshot Key : clear implicits.
Arguments Worker Key : clear implicits.
Arguments Flow Key : clear implicits.
Arguments Env Key : clear implicits.
Arguments Phase1 Key : clear implicits.

(** Exceptions that come from the interpreter rather than from a check of
    the script. *)
Definition unstructured (e : PyError) : bool :=
  match e with
  | IndexError | TypeError | AttributeError | ZeroDivisionError => true
  | _ => false
  end.

(** ** The scenario of the specification

    Shard [S] owns [0,10), [10,20) and [20,30), with versions (1,0), (1,0)
    and (1,1); the estimate is 25 MB a chunk and the target 64 MB. *)

Module Scenario.

Definition S : string := "S".
Definition chunk_0_10 : Chunk Z := mkChunk 0%Z 10%Z S (mkTimestamp 1 0).
Definition chunk_10_20 : Chunk Z := mkChunk 10%Z 20%Z S (mkTimestamp 1 0).
Definition chunk_20_30 : Chunk Z := mkChunk 20%Z 30%Z S (mkTimestamp 1 1).
Definition inventory : list (Chunk Z) := [chunk_0_10; chunk_10_20; chunk_20_30].

Definition chunk_30_40 : Chunk Z := mkChunk 30%Z 40%Z S (mkTimestamp 1 1).

(** The dry run of the scenario. *)
Definition plan : Args := mkArgs true "test.coll" 25.

(** A run that commits, with an estimate of 64 MB a chunk. *)
Definition execute : Args := mkArgs false "test.coll" 64.

(** A cluster on which [dataSize] reports [size_mb] megabytes and every
    [mergeChunks] gets [reply]. *)
Definition cluster_replying (size_mb : Z) (reply : MergeReply) : Cluster Z :=
  mkCluster (fun _ _ _ => DataSizeOk (size_mb * 1024 * 1024)) (fun _ _ _ => reply).

Definition LockBusy : MergeReply := MergeRaises (OperationFailure 46).


Definition env (chunksize : Z) (size_mb : Z) (reply : MergeReply) : Env Z :=
  {| collections_find_one := fun _ => Some (mkCollectionDoc [("x"%string, 1%Z)]);
     chunks_count_documents := fun _ => 3;
     is_mongos := true;
     yes_no := true;
     balancer_doc := Some (mkBalancerDoc "off");
     auto_splitter_doc := Some (mkAutosplitDoc false);
     chunk_size_doc := Some (mkChunksizeDoc chunksize);
     chunks_find := fun _ => inventory;
     cluster_of := fun _ => cluster_replying size_mb reply |}.

(** A coroutine in the middle of its loop, holding the first two chunks
    with a running estimate of [estimate]. *)
Definition accumulating (estimate : Z) : Worker Z :=
  {| consecutive_chunks := [chunk_0_10; chunk_10_20];
     estimated_size_of_consecutive_chunks := estimate;
     num_lock_busy_errors_encountered := 0;
     shard_is_at_collection_version := true;
     shard_entry := {| chunks := inventory; num_merges_performed := 0 |};
     trace := [] |}.

(** A shard with four contiguous chunks, below a collection version of
    time 2. *)
Definition four_chunks : ShardEntry Z :=
  {| chunks := inventory ++ [chunk_30_40]; num_merges_performed := 0 |}.

(** A shard whose two chunks leave a gap between them. *)
Definition two_apart : ShardEntry Z :=
  {| chunks := [chunk_0_10; chunk_20_30]; num_merges_performed := 0 |}.

(** A cluster as [env 64 75 MergeOk], with the balancer and the
    auto-splitter running and without a mongos. *)
Definition env_unchecked : Env Z :=
  {| collections_find_one := fun _ => Some (mkCollectionDoc [("x"%string, 1%Z)]);
     chunks_count_documents := fun _ => 3;
     is_mongos := false;
     yes_no := false;
     balancer_doc := Some (mkBalancerDoc "full");
     auto_splitter_doc := Some (mkAutosplitDoc true);
     chunk_size_doc := Some (mkChunksizeDoc 64);
     chunks_find := fun _ => inventory;
     cluster_of := fun _ => cluster_replying 75 MergeOk |}.

(** A cluster as [env 128 120 MergeOk], with a user who does not confirm. *)
Definition env_declined : Env Z :=
  {| collections_find_one := fun _ => Some (mkCollectionDoc [("x"%string, 1%Z)]);
     chunks_count_documents := fun _ => 3;
     is_mongos := true;
     yes_no := false;
     balancer_doc := Some (mkBalancerDoc "off");
     auto_splitter_doc := Some (mkAutosplitDoc false);
     chunk_size_doc := Some (mkChunksizeDoc 128);
     chunks_find := fun _ => inventory;
     cluster_of := fun _ => cluster_replying 120 MergeOk |}.

(** A namespace that [config.collections] does not know. *)
Definition env_not_sharded : Env Z :=
  {| collections_find_one := fun _ => None;
     chunks_count_documents := fun _ => 0;
     is_mongos := true;
     yes_no := true;
     balancer_doc := Some (mkBalancerDoc "off");
     auto_splitter_doc := Some (mkAutosplitDoc false);
     chunk_size_doc := Some (mkChunksizeDoc 128);
     chunks_find := fun _ => [];
     cluster_of := fun _ => cluster_replying 75 MergeOk |}.

(** A cluster without a [chunksize] document in [config.settings]. *)
Definition env_no_chunksize : Env Z :=
  {| collections_find_one := fun _ => Some (mkCollectionDoc [("x"%string, 1%Z)]);
     chunks_count_documents := fun _ => 3;
     is_mongos := true;
     yes_no := true;
     balancer_doc := None;
     auto_splitter_doc := None;
     chunk_size_doc := None;
     chunks_find := fun _ => inventory;
     cluster_of := fun _ => cluster_replying 75 MergeOk |}.

End Scenario.

(** * [manually_unshard_collection.py]

    The coroutine [main] of the script that unshards a collection. The calls
    into the module [common], which is not part of the sources, are events of
    the trace: [check_is_mongos], whose failure is a parameter, and
    [on_each_shard], which is given the routine that flushes the routing
    table of a shard. *)

Module Unshard.

Inductive Bound : Type := MinKey | MaxKey.

(** The document of [config.collections]: the fields of the shard key and
    the identifier of the collection. *)
Record CollectionDoc : Type := mkCollectionDoc {
  key : list string;
  uuid : Z
}.

Inductive Event : Type :=
| CheckIsMongos
| FindCollection (n : string)
| Log (line : string)
| Command_balancerStop
| Command_mergeChunks (n : string) (lo hi : list (string * Bound))
| CountChunks (id : Z)
| DeleteCollection (n : string)
| DeleteChunks (id : Z)
| DeleteTags (n : string)
| OnEachShard_flushRoutingTableCacheUpdates (n : string).

Record Env : Type := mkEnv {
  check_is_mongos : option PyError;
  collections_find_one : string -> option CollectionDoc;
  balancerStop : option PyError;
  mergeChunks : option PyError;
  chunks_count_documents : Z -> nat;
  on_each_shard : option PyError
}.

(** [f'Collection {args.namespace} is NOT sharded'] and
    [f'Collection {args.namespace} must contain exactly one chunk'] *)
Definition not_sharded_message (namespace : string) : string :=
  String.append "Collection " (String.append namespace " is NOT sharded").
Definition one_chunk_message (namespace : string) : string :=
  String.append "Collection "
    (String.append namespace " must contain exactly one chunk").

(** [{k: bound for k in collection['key'].keys()}] *)
Definition bounds_of (b : Bound) (doc : CollectionDoc) : list (string * Bound) :=
  map (fun k => (k, b)) (key doc).

Definition is_delete (ev : Event) : bool :=
  match ev with
  | DeleteCollection _ | DeleteChunks _ | DeleteTags _ => true
  | _ => false
  end.

Definition is_command (ev : Event) : bool :=
  match ev with
  | Command_balancerStop | Command_mergeChunks _ _ _ => true
  | _ => false
  end.

(** Lines 17-56; the result is the trace and the exception, if any. *)
Definition main (namespace : string) (env : Env) : list Event * option PyError :=
  let t := [CheckIsMongos] in
  match check_is_mongos env with
  | Some e => (t, Some e)
  | None =>
  match split_ns namespace with
  | None => (t, Some IndexError)
  | Some _ =>
  let t := t ++ [FindCollection namespace] in
  match collections_find_one env namespace with
  | None => (t, Some (ScriptException (not_sharded_message namespace)))
  | Some collection =>
  let t := t ++ [Log "Stopping balancer"; Command_balancerStop] in
  match balancerStop env with
  | Some e => (t, Some e)
  | None =>
  let t := t ++ [Log "Merging all chunks into one";
                 Command_mergeChunks namespace (bounds_of MinKey collection)
                   (bounds_of MaxKey collection)] in
  match mergeChunks env with
  | Some e => (t, Some e)
  | None =>
  let t := t ++ [CountChunks (uuid collection)] in
  if negb (chunks_count_documents env (uuid collection) =? 1)%nat
  then (t, Some (ScriptException (one_chunk_message namespace)))
  else
  let t := t ++ [DeleteCollection namespace;
                 DeleteChunks (uuid collection);
                 DeleteTags namespace;
                 OnEachShard_flushRoutingTableCacheUpdates namespace] in
  (t, on_each_shard env)
  end end end end end.

End Unshard.

Module UnshardScenario.

(** For the script that unshards: a cluster that does not know the
    namespace, and one on which the merge leaves a single chunk. *)
Definition env_not_sharded : Unshard.Env :=
  {| Unshard.check_is_mongos := None;
     Unshard.collections_find_one := fun _ => None;
     Unshard.balancerStop := None;
     Unshard.mergeChunks := None;
     Unshard.chunks_count_documents := fun _ => 0;
     Unshard.on_each_shard := None |}.

Definition env_one_chunk : Unshard.Env :=
  {| Unshard.check_is_mongos := None;
     Unshard.collections_find_one :=
       fun _ => Some (Unshard.mkCollectionDoc ["x"%string] 7);
     Unshard.balancerStop := None;
     Unshard.mergeChunks := None;
     Unshard.chunks_count_documents := fun _ => 1;
     Unshard.on_each_shard := None |}.

End UnshardScenario.

(** * Properties *)

Section Loader.

Context {Key : Type} `{EqDecision Key}.

Implicit Types (c : Chunk Key) (cs : list (Chunk Key)) (s : string).

(** The chunks of [cs] that shard [s] owns, in the order of [cs]. *)
Local Abbreviation owned s cs := (filter (fun c => chunk_shard c = s) cs).

Lemma load_snapshot_snoc cs c :
  load_snapshot (cs ++ [c]) = scan_chunk (load_snapshot cs) c.
Proof. unfold load_snapshot. by rewrite fold_left_app. Qed.

(** The scan groups the chunks by owner and keeps their order; every entry
    starts with no merge performed. *)
Lemma load_snapshot_lookup cs s :
  shard_to_chunks (load_snapshot cs) !! s =
  match owned s cs with
  | [] => None
  | l => Some {| chunks := l; num_merges_performed := 0 |}
  end.
Proof.
  induction cs as [|c cs IH] using rev_ind; [done|].
  rewrite load_snapshot_snoc, filter_app. unfold scan_chunk; simpl.
  destruct (decide (chunk_shard c = s)) as [<-|Hne].
  - rewrite lookup_alter_eq, filter_cons_True, filter_nil by done.
    destruct (shard_to_chunks (load_snapshot cs) !! chunk_shard c) as [e|] eqn:He.
    + rewrite He. destruct (owned _ cs) as [|a l]; [done|].
      by injection IH as ->.
    + rewrite lookup_insert_eq. by destruct (owned _ cs).
  - rewrite lookup_alter_ne, filter_cons_False, filter_nil, app_nil_r by done.
    destruct (shard_to_chunks (load_snapshot cs) !! chunk_shard c);
      [done | by rewrite lookup_insert_ne].
Qed.

Lemma load_snapshot_entry cs s entry :
  shard_to_chunks (load_snapshot cs) !! s = Some entry ->
  chunks entry = owned s cs /\ num_merges_performed entry = 0.
Proof.
  rewrite load_snapshot_lookup.
  destruct (owned s cs); [done|]. by intros [= <-].
Qed.

Lemma load_snapshot_owner cs s entry :
  shard_to_chunks (load_snapshot cs) !! s = Some entry ->
  Forall (fun c => chunk_shard c = s) (chunks entry).
Proof.
  intros [-> _]%load_snapshot_entry.
  apply Forall_forall. by intros c [? _]%list_elem_of_filter.
Qed.

End Loader.

(** Unfolds one iteration of the loop into its branches. *)
Ltac branches :=
  unfold loop_body, evaluate, commit, perform_merge, measure;
  repeat case_match; simplify_eq/=.

(** Unfolds the prologue of the coroutine, up to its loop. *)
Ltac prologue := unfold merge_chunks_on_shard.

(** Unfold the size measurement, and the merge under its semaphore. *)
Ltac open_measure := unfold measure.
Ltac open_commit := unfold commit, perform_merge.
Ltac open_evaluate := unfold evaluate.
Ltac open_loop_body := unfold loop_body.

Section WorkerProperties.

Context {Key : Type} `{EqDecision Key}.

Variable args : Args.
Variable db : string.
Variable shardKeyPattern : KeyPattern.
Variable target_chunk_size : Z.
Variable cluster : Cluster Key.
Variable shard : string.

Implicit Types (c : Chunk Key) (cs : list (Chunk Key)) (w : Worker Key)
  (t : list (Event Key)).

Local Abbreviation measure := (measure args db shardKeyPattern cluster).
Local Abbreviation perform_merge := (perform_merge args cluster shard).
Local Abbreviation commit := (commit args cluster shard).
Local Abbreviation evaluate :=
  (evaluate args db shardKeyPattern target_chunk_size cluster shard).
Local Abbreviation loop_body :=
  (loop_body args db shardKeyPattern target_chunk_size cluster shard).
Local Abbreviation run_loop :=
  (run_loop args db shardKeyPattern target_chunk_size cluster shard).
Local Abbreviation merge_chunks_on_shard :=
  (merge_chunks_on_shard args db shardKeyPattern target_chunk_size cluster shard).

(** The coroutine either returns before its loop, having sent nothing, or
    runs the loop over all the chunks of the shard after two lines of
    output. *)
Lemma merge_chunks_on_shard_cases entry v :
  final (merge_chunks_on_shard entry v) = start entry false [] \/
  exists at_version shard_version,
    merge_chunks_on_shard entry v =
    run_loop
      (start entry at_version
         [Print (MsgShardVersion shard shard_version);
          Print (if at_version then MsgWithoutMajorVersionBump
                 else MsgWithMajorVersionBump)])
      (chunks entry).
Proof.
  prologue. destruct (length (chunks entry) <? 2); [by left|].
  destruct (chunks entry) as [|c0 rest]; [by left|].
  destruct v as [v|]; [|by left]. right. eauto.
Qed.

(** *** Dry runs send nothing *)

Lemma loop_body_no_command w c :
  dryrun args = true ->
  Forall (fun ev => is_command ev = false) (trace w) ->
  Forall (fun ev => is_command ev = false) (trace (final (loop_body w c))).
Proof.
  intros Hdry Hw. branches; try done; try congruence.
  all: rewrite ?Forall_app, ?Forall_singleton; auto.
Qed.

Lemma run_loop_no_command cs w :
  dryrun args = true ->
  Forall (fun ev => is_command ev = false) (trace w) ->
  Forall (fun ev => is_command ev = false) (trace (final (run_loop w cs))).
Proof.
  intros Hdry. revert w. induction cs as [|c cs IH]; intros w Hw; [done|].
  simpl. pose proof (loop_body_no_command w c Hdry Hw) as Hstep.
  destruct (loop_body w c); simpl in *; auto.
Qed.

Lemma merge_chunks_on_shard_no_command entry v :
  dryrun args = true ->
  Forall (fun ev => is_command ev = false)
         (trace (final (merge_chunks_on_shard entry v))).
Proof.
  intros Hdry.
  destruct (merge_chunks_on_shard_cases entry v) as [->|(b & sv & ->)];
    [constructor|].
  apply run_loop_no_command; [done|]. by repeat constructor.
Qed.

(** *** The semaphore of a merge *)

Lemma bump_only_first_app t1 t2 :
  bump_only_first (t1 ++ t2) <->
  bump_only_first t1 /\ bump_only_first t2 /\
  (Exists (fun ev => is_attempt ev = true) t1 ->
   Forall (fun ev => is_bump ev = false) t2).
Proof.
  induction t1 as [|ev t1 IH]; simpl.
  - rewrite Exists_nil. tauto.
  - rewrite IH, Forall_app, Exists_cons. tauto.
Qed.

Lemma bump_only_first_split t before ev after :
  bump_only_first t ->
  t = before ++ ev :: after ->
  is_attempt ev = true ->
  Forall (fun e => is_bump e = false) after.
Proof.
  intros Ht -> Hev. apply bump_only_first_app in Ht as (_ & [Hafter _] & _).
  auto.
Qed.

Lemma acquired_no_bump t :
  Forall (fun ev => is_bump ev = false) t ->
  Forall (fun g => g = sem_at_collection_version) (acquired t).
Proof.
  induction 1 as [|ev t Hev _ IH]; [constructor|].
  unfold acquired in *. simpl.
  destruct ev as [| | | |[]| | |]; simpl; try done. by constructor.
Qed.

Lemma bump_only_first_count t :
  bump_only_first t ->
  length (filter (fun g => g = sem_at_less_than_collection_version) (acquired t)) <= 1.
Proof.
  induction t as [|ev t IH]; simpl; [lia|]. intros [Hev Ht].
  destruct ev as [| | | |g| | |]; try (by apply IH).
  specialize (Hev eq_refl). apply acquired_no_bump in Hev.
  unfold acquired in *. simpl. rewrite filter_cons.
  assert (filter (fun g => g = sem_at_less_than_collection_version)
            (omap (fun ev => match ev with Acquire g => Some g | _ => None end) t) = [])
    as ->.
  { clear -Hev. induction Hev as [|g l -> _ IH]; [done|].
    by rewrite filter_cons_False. }
  case_decide; simpl; lia.
Qed.

Lemma loop_body_bump_only_first w c :
  fresh w ->
  bump_only_first (trace w) ->
  bump_only_first (trace (final (loop_body w c))) /\
  (forall w', loop_body w c = Normal w' -> fresh w').
Proof.
  unfold fresh. intros Hfresh Ht.
  assert (Hnone : shard_is_at_collection_version w = false ->
                  ~ Exists (fun ev => is_attempt ev = true) (trace w)).
  { intros Hf%Hfresh Hex. apply Exists_exists in Hex as (ev & Hin & Hev).
    rewrite Forall_forall in Hf. specialize (Hf ev Hin). congruence. }
  branches.
  all: split; [|intros w' Hw'; simplify_eq/=; try done].
  all: rewrite ?bump_only_first_app; simpl;
    rewrite ?Forall_app, ?Forall_singleton, ?Exists_app; simpl; try tauto.
  all: try (repeat split; auto; try tauto; try (by intros; constructor)).
  all: intros [Hex|Hex];
    [by apply Hnone in Hex
    |by apply Exists_cons in Hex as [Hex|Hex%Exists_nil]].
Qed.

Lemma run_loop_bump_only_first cs w :
  fresh w ->
  bump_only_first (trace w) ->
  bump_only_first (trace (final (run_loop w cs))).
Proof.
  revert w. induction cs as [|c cs IH]; intros w Hfresh Ht; [done|].
  simpl. destruct (loop_body_bump_only_first w c Hfresh Ht) as [Hstep Hnext].
  destruct (loop_body w c) as [w'|e w']; simpl in *; auto.
Qed.

Lemma merge_chunks_on_shard_bump_only_first entry v :
  bump_only_first (trace (final (merge_chunks_on_shard entry v))).
Proof.
  destruct (merge_chunks_on_shard_cases entry v) as [->|(b & sv & ->)];
    [done|].
  apply run_loop_bump_only_first.
  - intros _. destruct b; by repeat constructor.
  - destruct b; simpl; repeat split; done.
Qed.

(** *** The range of a merge *)

Lemma last_cons (a b : Chunk Key) rest :
  List.last (b :: rest) a = List.last rest b.
Proof.
  revert a b. induction rest as [|r rest IH]; intros a b; [done|].
  change (List.last (r :: rest) a = List.last (r :: rest) b).
  by rewrite !IH.
Qed.

Lemma contiguous_snoc cs c first rest :
  cs = first :: rest ->
  contiguous cs ->
  chunk_max (List.last rest first) = chunk_min c ->
  contiguous (cs ++ [c]).
Proof.
  intros ->. revert first. induction rest as [|b rest IH]; intros a Hc Hlast.
  - simpl in *. auto.
  - destruct Hc as [Hab Hc]. split; [done|]. apply (IH b); [done|].
    by rewrite <- (last_cons a).
Qed.

Lemma backed_by_snoc (all : list (Chunk Key)) c range :
  backed_by all range -> backed_by (all ++ [c]) range.
Proof.
  intros (before & run & after & -> & Hlen & Hrun & Hb).
  exists before, run, (after ++ [c]). by rewrite <- !app_assoc.
Qed.

Lemma backed_emit scanned t ev :
  Forall (backed_by scanned) (merge_ranges t) ->
  match merge_range ev with
  | Some range => backed_by scanned range
  | None => True
  end ->
  Forall (backed_by scanned) (merge_ranges (t ++ [ev])).
Proof.
  intros Ht Hev. unfold merge_ranges in *. rewrite omap_app, Forall_app.
  split; [done|]. simpl. destruct (merge_range ev); by repeat constructor.
Qed.

Lemma backed_by_extended scanned w c first rest range :
  candidate_ok scanned w ->
  consecutive_chunks w = first :: rest ->
  chunk_max (List.last rest first) = chunk_min c ->
  bounds (consecutive_chunks w ++ [c]) = Some range ->
  backed_by (scanned ++ [c]) range.
Proof.
  intros [[before ->] Hc] Hcand Hlast Hb.
  exists before, (consecutive_chunks w ++ [c]), [].
  rewrite app_nil_r, <- app_assoc. repeat split; [|by eapply contiguous_snoc|done].
  rewrite Hcand, length_app. simpl. lia.
Qed.

Lemma backed_by_broken scanned w c first rest :
  candidate_ok scanned w ->
  consecutive_chunks w = first :: rest ->
  S (length rest) <> 1 ->
  backed_by (scanned ++ [c]) (chunk_min first, chunk_max (List.last rest first)).
Proof.
  intros [[before ->] Hc] Hcand Hlen.
  exists before, (consecutive_chunks w), [c].
  rewrite <- app_assoc, Hcand in *. repeat split; [|done..].
  destruct rest; simpl in *; [done|lia].
Qed.

Lemma loop_body_backed scanned w c :
  candidate_ok scanned w ->
  merges_backed scanned w ->
  merges_backed (scanned ++ [c]) (final (loop_body w c)) /\
  (forall w', loop_body w c = Normal w' -> candidate_ok (scanned ++ [c]) w').
Proof.
  intros Hcand Hw.
  assert (Hold : Forall (backed_by (scanned ++ [c])) (merge_ranges (trace w))).
  { eapply Forall_impl; [exact Hw|]. intros r. apply backed_by_snoc. }
  assert (Hrestart : candidate_ok (scanned ++ [c]) (restart_with args c w)).
  { split; simpl; eauto. }
  assert (Hextend : forall first rest,
             consecutive_chunks w = first :: rest ->
             chunk_max (List.last rest first) = chunk_min c ->
             candidate_ok (scanned ++ [c]) (extend_with args c w)).
  { intros first rest Hfirst Hlast. destruct Hcand as [[before ->] Hc].
    split; simpl; [|by eapply contiguous_snoc].
    exists before. by rewrite app_assoc. }
  unfold merges_backed.
  branches.
  all: split; [|intros w' Hw'; simplify_eq/=].
  all: repeat match goal with
         | H : bool_decide _ = true |- _ => apply bool_decide_eq_true in H
         | H : bool_decide _ = false |- _ => apply bool_decide_eq_false in H
         | H : _ && false = true |- _ => by rewrite andb_false_r in H
         end.
  all: try done.
  all: try (repeat (apply backed_emit; simpl);
            eauto using backed_by_extended, backed_by_broken; fail).
  all: try (by eapply Hextend).
  all: try (split; simpl; [by eexists; rewrite ?app_nil_r | done]).
Qed.

Lemma backed_by_app (all more : list (Chunk Key)) range :
  backed_by all range -> backed_by (all ++ more) range.
Proof.
  intros (before & run & after & -> & Hlen & Hrun & Hb).
  exists before, run, (after ++ more). by rewrite <- !app_assoc.
Qed.

Lemma run_loop_backed cs scanned w :
  candidate_ok scanned w ->
  merges_backed scanned w ->
  merges_backed (scanned ++ cs) (final (run_loop w cs)).
Proof.
  revert scanned w. induction cs as [|c cs IH]; intros scanned w Hcand Hw.
  - by rewrite app_nil_r.
  - simpl. destruct (loop_body_backed scanned w c Hcand Hw) as [Hstep Hnext].
    rewrite cons_middle, app_assoc.
    destruct (loop_body w c) as [w'|e w']; simpl in *; [by apply IH; auto|].
    eapply Forall_impl; [exact Hstep|]. intros r. apply backed_by_app.
Qed.

Lemma merge_chunks_on_shard_backed entry v :
  merges_backed (chunks entry) (final (merge_chunks_on_shard entry v)).
Proof.
  destruct (merge_chunks_on_shard_cases entry v) as [->|(b & sv & ->)];
    [constructor|].
  apply (run_loop_backed (chunks entry) []).
  - split; [by exists []|done].
  - destruct b; constructor.
Qed.

(** *** What a commit does *)

Lemma measure_keeps lo hi w w1 r :
  measure lo hi w = (w1, r) ->
  consecutive_chunks w1 = consecutive_chunks w /\
  estimated_size_of_consecutive_chunks w1 = estimated_size_of_consecutive_chunks w /\
  shard_entry w1 = shard_entry w /\
  merge_ranges (trace w1) = merge_ranges (trace w) /\
  acquired (trace w1) = acquired (trace w).
Proof.
  open_measure. unfold merge_ranges, acquired. intros Hm.
  repeat case_match; simplify_eq/=; rewrite ?omap_app, ?app_nil_r; done.
Qed.

(** A commit shows exactly one more merge, over the range it was given. *)
Lemma commit_merge_ranges flag lo hi c w :
  merge_ranges (trace (final (commit flag lo hi c w))) =
  merge_ranges (trace w) ++ [(lo, hi)].
Proof.
  open_commit. unfold merge_ranges.
  repeat case_match; simplify_eq/=; rewrite ?omap_app; simpl;
    by rewrite ?app_nil_r, <- ?app_assoc.
Qed.

(** When the commit does not raise, the candidate is consumed and the merge
    is counted. *)
Lemma commit_normal flag lo hi c w w' :
  commit flag lo hi c w = Normal w' ->
  consecutive_chunks w' = (if flag then [c] else []) /\
  estimated_size_of_consecutive_chunks w' =
    (if flag then phase_1_estimated_chunk_size_mb args else 0%Z) /\
  num_merges_performed (shard_entry w') = S (num_merges_performed (shard_entry w)) /\
  shard_is_at_collection_version w' = true.
Proof.
  open_commit. intros Hc.
  repeat case_match; simplify_eq/=; done.
Qed.

(** *** The outcome of a commit *)

Lemma commit_commits (flag : bool) lo hi c w :
  commits args cluster shard w (consecutive_chunks w) (trace w) lo hi
    (if flag then [c] else [])
    (if flag then phase_1_estimated_chunk_size_mb args else 0%Z)
    (commit flag lo hi c w).
Proof.
  unfold commits. open_commit.
  destruct (dryrun args); simpl.
  { destruct flag; simpl; rewrite <- ?app_assoc; (split; [done|]); eauto 10. }
  destruct (mergeChunks cluster _ lo hi) as [|e] eqn:Hreply; simpl.
  { destruct flag; simpl; rewrite <- ?app_assoc; (split; [done|]); eauto 10. }
  destruct e as [| | | | |message|code| |]; simpl;
    try (rewrite <- ?app_assoc; (split; [done|]); eauto 10).
  destruct (code =? 46)%Z; simpl; [|rewrite <- ?app_assoc; split; eauto 10].
  destruct (num_lock_busy_errors_encountered w) as [|n]; simpl;
    destruct flag; simpl; rewrite <- ?app_assoc; (split; [done|]); eauto 10.
Qed.

(** *** The size gate *)

(** C3. Let [c] continue the candidate, so that the commit is not forced,
    and let the candidate with [c] be evaluated: its estimate is above 90% of
    the target. Its size is the estimate in a dry run and otherwise the
    rounded size that [dataSize] reports over its bounds. When that size is
    strictly below 75% of the target the candidate is kept with [c], nothing
    but the size request is sent and the running estimate becomes the
    measured size. Otherwise the candidate is committed over its bounds and
    consumed. A size of exactly 75% of the target is committed, and so is a
    size of exactly 110% of a target that is not negative. *)
Theorem size_gate_boundaries w c first rest actual t0 :
  consecutive_chunks w = first :: rest ->
  chunk_max (List.last rest first) = chunk_min c ->
  let estimate := (estimated_size_of_consecutive_chunks w
                   + phase_1_estimated_chunk_size_mb args)%Z in
  let lo := chunk_min first in
  let hi := chunk_max c in
  le_pct estimate target_chunk_size 90 = false ->
  (if dryrun args
   then actual = estimate /\ t0 = trace w
   else exists size,
          dataSize cluster (length (trace w)) lo hi = DataSizeOk size /\
          actual = ceil_mb size /\
          t0 = trace w ++ [Command_dataSize db (ns args) shardKeyPattern lo hi]) ->
  ((100 * actual < 75 * target_chunk_size)%Z ->
     exists w',
       loop_body w c = Normal w' /\
       consecutive_chunks w' = consecutive_chunks w ++ [c] /\
       estimated_size_of_consecutive_chunks w' = actual /\
       trace w' = t0 /\
       shard_entry w' = shard_entry w /\
       shard_is_at_collection_version w' = shard_is_at_collection_version w) /\
  ((75 * target_chunk_size <= 100 * actual)%Z ->
     commits args cluster shard w (consecutive_chunks w ++ [c]) t0 lo hi
       [] 0%Z (loop_body w c)) /\
  ((100 * actual = 75 * target_chunk_size)%Z ->
     commits args cluster shard w (consecutive_chunks w ++ [c]) t0 lo hi
       [] 0%Z (loop_body w c)) /\
  ((0 <= target_chunk_size)%Z ->
   (100 * actual = 110 * target_chunk_size)%Z ->
     commits args cluster shard w (consecutive_chunks w ++ [c]) t0 lo hi
       [] 0%Z (loop_body w c)).
Proof.
  intros Hcand Hlast estimate lo hi Hgate Hsize.
  assert (Hbounds : bounds (consecutive_chunks w ++ [c]) = Some (lo, hi)).
  { rewrite Hcand. simpl. by rewrite List.last_last. }
  assert (Hbody : loop_body w c = evaluate false c (extend_with args c w)).
  { open_loop_body. rewrite Hcand. by rewrite bool_decide_eq_true_2. }
  assert (Hmeasure : exists w1,
             measure lo hi (extend_with args c w) = (w1, inr actual) /\
             w1 = (if dryrun args then extend_with args c w
                   else emit (Command_dataSize db (ns args) shardKeyPattern lo hi)
                          (extend_with args c w)) /\
             trace w1 = t0).
  { open_measure. destruct (dryrun args).
    - destruct Hsize as [-> ->]. eauto.
    - destruct Hsize as (size & Hreply & -> & ->). simpl. rewrite Hreply. eauto. }
  destruct Hmeasure as (w1 & Hmeasure & Hw1 & Ht0).
  assert (Hkeep : (100 * actual < 75 * target_chunk_size)%Z ->
            loop_body w c =
            Normal (set_candidate (consecutive_chunks w1) actual w1)).
  { intros Hlt. rewrite Hbody. open_evaluate. simpl. fold estimate.
    rewrite Hgate, Hbounds, Hmeasure. simpl.
    unfold lt_pct. by rewrite (proj2 (Z.ltb_lt _ _) Hlt). }
  assert (Hmerge : (75 * target_chunk_size <= 100 * actual)%Z ->
            commits args cluster shard w (consecutive_chunks w ++ [c]) t0 lo hi
              [] 0%Z (loop_body w c)).
  { intros Hge.
    assert (loop_body w c = commit false lo hi c w1) as ->.
    { rewrite Hbody. open_evaluate. simpl. fold estimate.
      rewrite Hgate, Hbounds, Hmeasure. simpl.
      unfold lt_pct. rewrite (proj2 (Z.ltb_ge _ _) Hge).
      by destruct (gt_pct actual target_chunk_size 110). }
    pose proof (commit_commits false lo hi c w1) as Hcommits.
    rewrite <- Ht0. by destruct (dryrun args); subst w1. }
  split; [|split; [done|split]].
  - intros Hlt. eexists. split; [by apply Hkeep|].
    rewrite <- Ht0. by destruct (dryrun args); subst w1.
  - intros Heq. apply Hmerge. lia.
  - intros Hpos Heq. apply Hmerge. lia.
Qed.

(** *** A break of contiguity *)


(** *** The two semaphores *)

(** C5. In the trace of the coroutine of a shard the semaphore of the
    version-bumping merges, of capacity 1, is taken at most once. Once a merge
    has been sent and has succeeded, every semaphore taken later is the one of
    the shards at the collection version, of capacity 8; the same holds after
    any merge attempt, whatever its outcome. *)
Theorem version_bump_gate_at_most_once entry v :
  let t := trace (final (merge_chunks_on_shard entry v)) in
  capacity sem_at_less_than_collection_version = 1 /\
  capacity sem_at_collection_version = 8 /\
  length (filter (fun g => g = sem_at_less_than_collection_version) (acquired t)) <= 1 /\
  (forall before n lo hi after,
     t = before ++ Command_mergeChunks n lo hi MergeOk :: after ->
     Forall (fun g => g = sem_at_collection_version) (acquired after)) /\
  (forall before ev after,
     t = before ++ ev :: after ->
     is_attempt ev = true ->
     Forall (fun g => g = sem_at_collection_version) (acquired after)).
Proof.
  intros t. pose proof (merge_chunks_on_shard_bump_only_first entry v) as Ht.
  fold t in Ht. repeat split.
  - by apply bump_only_first_count.
  - intros before n lo hi after Heq. apply acquired_no_bump.
    by eapply bump_only_first_split.
  - intros before ev after Heq Hev. apply acquired_no_bump.
    by eapply bump_only_first_split.
Qed.

(** *** A shard with fewer than two chunks *)

(** C9. For a shard of the snapshot that owns fewer than two chunks the
    coroutine returns at once: its trace is empty, so that it has sent no
    merge, requested no size and taken no semaphore, and the merge count of
    the shard is still zero. *)
Theorem fewer_than_two_chunks_returns_at_once (inventory : list (Chunk Key)) entry v :
  shard_to_chunks (load_snapshot inventory) !! shard = Some entry ->
  length (chunks entry) < 2 ->
  exists w,
    merge_chunks_on_shard entry v = Normal w /\
    trace w = [] /\
    shard_entry w = entry /\
    num_merges_performed (shard_entry w) = 0.
Proof.
  intros [_ Hzero]%load_snapshot_entry Hlen.
  exists (start entry false []). prologue.
  rewrite (proj2 (Nat.ltb_lt _ _) Hlen). done.
Qed.

End WorkerProperties.


(** Unfold the stages of [main] and the operations of [Script]. *)
Ltac open_script :=
  unfold main, connect, sanity_checks, initialise, subscript, when;
  cbv [mbind mret script_bind script_ret tell raise].

Ltac open_keeps := unfold keeps, subscript, when;
  cbv [mbind mret script_bind script_ret tell raise].

Section MainProperties.

Context {Key : Type} `{EqDecision Key}.

Implicit Types (env : Env Key) (p : Phase1 Key) (t : list (Event Key))
  (P : Event Key -> Prop).

(** *** Computations that only add harmless events *)

Lemma keeps_ret P {A} (a : A) : keeps P (mret (M:=Script) a).
Proof. by open_keeps. Qed.

Lemma keeps_raise P {A} e : keeps P (raise (A:=A) e).
Proof. by open_keeps. Qed.

Lemma keeps_tell P ev : P ev -> keeps P (tell ev).
Proof. open_keeps. intros Hev t Ht. simpl. apply Forall_app. by repeat constructor. Qed.

Lemma keeps_bind P {A B} (m : Script (Key:=Key) A) (k : A -> Script (Key:=Key) B) :
  keeps P m -> (forall a, keeps P (k a)) -> keeps P (m ≫= k).
Proof.
  open_keeps. intros Hm Hk t Ht. specialize (Hm t Ht).
  destruct (m t) as [t1 [e|a]]; simpl in *; [done|]. by apply Hk.
Qed.

Lemma keeps_subscript P {A} (doc : option A) : keeps P (subscript doc).
Proof. destruct doc; [apply keeps_ret|apply keeps_raise]. Qed.

Ltac keeps_script :=
  repeat first
    [ apply keeps_ret | apply keeps_raise | apply keeps_subscript
    | apply keeps_tell; done
    | apply keeps_bind; [|intros ?]
    | match goal with
      | |- keeps _ (match ?x with _ => _ end) => destruct x
      | |- keeps _ (when ?b _) => destruct b; simpl
      end
    | progress cbv zeta ].

Lemma connect_quiet args env : keeps quiet (connect args env).
Proof. unfold connect. keeps_script. Qed.

Lemma sanity_checks_quiet args env : keeps quiet (sanity_checks args env).
Proof. unfold sanity_checks. keeps_script. Qed.

Lemma scan_quiet num_chunks (cs : list (Chunk Key)) s :
  keeps quiet (scan num_chunks cs s).
Proof.
  revert s. induction cs as [|c cs IH]; intros s; simpl; [apply keeps_ret|].
  apply keeps_bind; [|intros _; apply IH].
  repeat case_match; keeps_script.
Qed.

Lemma initialise_quiet args env : keeps quiet (initialise args env).
Proof.
  unfold initialise. apply keeps_bind; [by apply keeps_tell|intros _].
  apply keeps_bind; [apply scan_quiet|intros snap]. keeps_script.
Qed.

Lemma main_quiet args env : Forall quiet (main args env []).1.
Proof.
  assert (keeps quiet (main args env)) as Hmain; [|by apply Hmain].
  unfold main.
  repeat (apply keeps_bind;
          [first [apply connect_quiet | apply sanity_checks_quiet
                 | apply initialise_quiet]|intros ?]).
  apply keeps_ret.
Qed.

(** *** The stages of [main] *)

Lemma bind_run {A B} (m : Script (Key:=Key) A) (k : A -> Script (Key:=Key) B) t :
  (m ≫= k) t =
  match m t with
  | (t1, inl e) => (t1, inl e)
  | (t1, inr a) => k a t1
  end.
Proof. reflexivity. Qed.

(** A scan that ends has built the snapshot of the chunks it was given. *)
Lemma scan_result num_chunks (cs : list (Chunk Key)) s t t' s' :
  scan num_chunks cs s t = (t', inr s') -> s' = fold_left scan_chunk cs s.
Proof.
  revert s t. induction cs as [|c cs IH]; intros s t; simpl.
  - by intros [= _ <-].
  - rewrite bind_run. repeat case_match; try done; intros Hs; by eapply IH.
Qed.

Lemma initialise_result args env t t' snap :
  initialise args env t = (t', inr snap) ->
  snap = load_snapshot (chunks_find env (ns args)).
Proof.
  unfold initialise. rewrite bind_run. simpl. rewrite bind_run.
  destruct (scan _ (chunks_find env (ns args)) _ _) as [t1 [e|s1]] eqn:Hscan;
    [done|].
  apply scan_result in Hscan as ->. by intros [= _ <-].
Qed.

(** A dry run stops in [connect] only on a namespace without a dot or on
    one that is not sharded. *)
Lemma connect_dry_run args env :
  dryrun args = true ->
  connect args env [] =
  match split_ns (ns args) with
  | None => ([], inl IndexError)
  | Some (db, _) =>
      match collections_find_one env (ns args) with
      | None => ([Read (FindCollection (ns args))], inl TypeError)
      | Some doc =>
          ([Read (FindCollection (ns args));
            Read (CountChunks (ns args));
            Print (MsgCollection (ns args) (key doc)
                     (chunks_count_documents env (ns args)));
            Print MsgDryRun;
            CheckIsMongos]
           ++ (if is_mongos env then [] else [Print MsgNotMongos]),
           inr (db, key doc))
      end
  end.
Proof.
  intros Hdry. open_script. rewrite Hdry.
  destruct (split_ns (ns args)) as [[db coll]|]; [|done].
  destruct (collections_find_one env (ns args)); [|done].
  by destruct (is_mongos env).
Qed.

(** A dry run reads the three settings and checks none of them; the target
    is the [value] of the [chunksize] document, if there is one. *)
Lemma sanity_checks_dry_run args env t :
  dryrun args = true ->
  sanity_checks args env t =
  (t ++ [Read (FindSetting "balancer");
         Read (FindSetting "autosplit");
         Read (FindSetting "chunksize")],
   match chunk_size_doc env with
   | Some d => inr (value d)
   | None => inl TypeError
   end).
Proof.
  intros Hdry. open_script. rewrite Hdry. simpl. rewrite <- !app_assoc.
  by destruct (chunk_size_doc env).
Qed.

(** When [main] reaches Phase 1, the coroutine of a shard is
    [merge_chunks_on_shard] on the entry the scan made for that shard. *)
Lemma main_workers args env t p s f :
  main args env [] = (t, inr p) ->
  workers p !! s = Some f ->
  snapshot p = load_snapshot (chunks_find env (ns args)) /\
  exists entry db pattern,
    shard_to_chunks (snapshot p) !! s = Some entry /\
    f = merge_chunks_on_shard args db pattern (target p) (cluster_of env s) s
          entry (collectionVersion (snapshot p)).
Proof.
  unfold main. rewrite bind_run.
  destruct (connect args env []) as [t1 [e|n]]; [done|]. rewrite bind_run.
  destruct (sanity_checks args env t1) as [t2 [e|size]]; [done|].
  rewrite bind_run.
  destruct (initialise args env t2) as [t3 [e|snap]] eqn:Hinit; [done|].
  apply initialise_result in Hinit as ->. intros [= <- <-]. simpl.
  unfold phase_1. rewrite map_lookup_imap.
  destruct (shard_to_chunks _ !! s) as [entry|] eqn:Hentry; [|done].
  intros [= <-]. eauto 10.
Qed.

(** *** Properties of a whole run *)

(** C6. When [main] reaches Phase 1, every merge in the trace of the
    coroutine of a shard [s], sent or only printed, is over a run of at least
    two chunks of the entry of [s] in which each chunk ends where the next
    one begins, and every chunk of that run is owned by [s]; [main] itself
    merges nothing. *)
Theorem merges_are_contiguous_on_one_shard args env t p s f range :
  main args env [] = (t, inr p) ->
  workers p !! s = Some f ->
  range ∈ merge_ranges (trace (final f)) ->
  merge_ranges t = [] /\
  exists entry before run after,
    shard_to_chunks (snapshot p) !! s = Some entry /\
    chunks entry = before ++ run ++ after /\
    2 <= length run /\
    contiguous run /\
    bounds run = Some range /\
    Forall (fun c => chunk_shard c = s) run.
Proof.
  intros Hmain Hf Hin.
  destruct (main_workers _ _ _ _ _ _ Hmain Hf)
    as (Hsnap & entry & db & pattern & Hentry & ->).
  split.
  { pose proof (main_quiet args env) as Hquiet. rewrite Hmain in Hquiet.
    simpl in Hquiet. clear -Hquiet. unfold merge_ranges.
    induction Hquiet as [|ev t [_ Hev] _ IH]; [done|]. simpl. by rewrite Hev. }
  pose proof (merge_chunks_on_shard_backed args db pattern (target p)
                (cluster_of env s) s entry (collectionVersion (snapshot p)))
    as Hbacked.
  unfold merges_backed in Hbacked. rewrite Forall_forall in Hbacked.
  destruct (Hbacked range Hin) as (before & run & after & Heq & Hlen & Hc & Hb).
  exists entry, before, run, after. repeat split; try done.
  rewrite Hsnap in Hentry. apply load_snapshot_owner in Hentry.
  rewrite Heq, !Forall_app in Hentry. tauto.
Qed.

(** C7. In a dry run neither [main] nor the coroutine of any shard sends a
    [dataSize] or a [mergeChunks] command, whatever the chunks are; a merge
    shows in a trace only as the line that prints it, and the size of a
    candidate is its running estimate, taken without asking the cluster. *)
Theorem dry_run_sends_no_command args env :
  dryrun args = true ->
  Forall (fun ev => is_command ev = false) (main args env []).1 /\
  (forall p, (main args env []).2 = inr p ->
     map_Forall (fun _ f =>
                   Forall (fun ev => is_command ev = false) (trace (final f)) /\
                   Forall (fun ev => is_Some (merge_range ev) ->
                             exists count s n lo hi,
                               ev = Print (MsgMerging count s n lo hi))
                          (trace (final f)))
                (workers p)) /\
  (forall db pattern (cluster : Cluster Key) lo hi w,
     measure args db pattern cluster lo hi w =
     (w, inr (estimated_size_of_consecutive_chunks w))).
Proof.
  intros Hdry. split; [|split].
  - eapply Forall_impl; [apply main_quiet|]. by intros ev [? _].
  - intros p Hp s f Hf.
    destruct (main args env []) as [t r] eqn:Hmain. simpl in Hp. subst r.
    destruct (main_workers _ _ _ _ _ _ Hmain Hf)
      as (_ & entry & db & pattern & _ & ->).
    pose proof (merge_chunks_on_shard_no_command args db pattern (target p)
                  (cluster_of env s) s entry (collectionVersion (snapshot p)) Hdry)
      as Hnone.
    split; [done|]. eapply Forall_impl; [exact Hnone|].
    intros [[]| | | | | | |] Hev [r Hr]; simplify_eq/=; eauto 10.
  - intros. open_measure. by rewrite Hdry.
Qed.

(** C8, as the code behaves. For a namespace with a dot that
    [config.collections] does not know, [main] raises the [TypeError] of
    subscripting [None] right after the lookup, having sent nothing else. *)
Theorem unsharded_namespace_raises_TypeError args env db coll :
  split_ns (ns args) = Some (db, coll) ->
  collections_find_one env (ns args) = None ->
  main args env [] = ([Read (FindCollection (ns args))], inl TypeError).
Proof.
  intros Hns Hnone. open_script. by rewrite Hns, Hnone.
Qed.

(** C10. In a dry run on a cluster without a [chunksize] document [main]
    raises an exception of the interpreter, not one of its own checks, and
    has not read [config.chunks] by then. When the namespace has a dot and is
    sharded the exception is the [TypeError] of reading [value] from [None],
    raised right after the three settings have been read. *)
Theorem missing_chunksize_fails_before_scan args env :
  dryrun args = true ->
  chunk_size_doc env = None ->
  exists t e,
    main args env [] = (t, inl e) /\
    unstructured e = true /\
    (forall n, Read (FindChunks n) ∉ t) /\
    (forall db coll doc,
       split_ns (ns args) = Some (db, coll) ->
       collections_find_one env (ns args) = Some doc ->
       e = TypeError /\
       exists before,
         t = before ++ [Read (FindSetting "balancer");
                        Read (FindSetting "autosplit");
                        Read (FindSetting "chunksize")]).
Proof.
  intros Hdry Hnone. unfold main.
  rewrite bind_run, (connect_dry_run _ _ Hdry).
  destruct (split_ns (ns args)) as [[db coll]|].
  2: { exists [], IndexError. split; [done|]. split; [done|]. split; [|done].
       intros n Hin. by apply elem_of_nil in Hin. }
  destruct (collections_find_one env (ns args)) as [doc|].
  2: { eexists _, TypeError. split; [done|]. split; [done|]. split; [|done].
       intros n Hin. by apply list_elem_of_singleton in Hin. }
  rewrite bind_run, (sanity_checks_dry_run _ _ _ Hdry), Hnone.
  eexists _, TypeError. split; [done|]. split; [done|]. split.
  - intros n Hin. rewrite !elem_of_app in Hin.
    destruct Hin as [[Hin|Hin]|Hin].
    + repeat (apply elem_of_cons in Hin as [Hin|Hin]; [done|]).
      by apply elem_of_nil in Hin.
    + destruct (is_mongos env); [by apply elem_of_nil in Hin|].
      by apply list_elem_of_singleton in Hin.
    + repeat (apply elem_of_cons in Hin as [Hin|Hin]; [done|]).
      by apply elem_of_nil in Hin.
  - intros _ _ _ _ _. split; [done|]. eauto.
Qed.

End MainProperties.

(** * The scenario, run *)

Section ScenarioChecks.

Import Scenario.

Local Abbreviation pattern := [("x"%string, 1%Z)].

(** C2. On the scenario, in a dry run with an estimate of 25 and a target of
    64, shard [S] gets the three chunks; the first two are accumulated with an
    estimate of 50 and nothing is sent, the third makes a candidate of three
    chunks whose size is taken to be 75, and the coroutine ends with one merge,
    over [0, 30), that it prints and counts. *)
Theorem scenario_plans_one_merge :
  exists t p w,
    main plan (env 64 75 MergeOk) [] = (t, inr p) /\
    shard_to_chunks (snapshot p) !! S =
      Some {| chunks := inventory; num_merges_performed := 0 |} /\
    size (workers p) = 1 /\
    workers p !! S = Some (Normal w) /\
    (exists w2,
       run_loop plan "test" pattern 64 (cluster_replying 75 MergeOk) S
         (start {| chunks := inventory; num_merges_performed := 0 |} true [])
         [chunk_0_10; chunk_10_20] = Normal w2 /\
       consecutive_chunks w2 = [chunk_0_10; chunk_10_20] /\
       estimated_size_of_consecutive_chunks w2 = 50%Z /\
       trace w2 = [] /\
       consecutive_chunks (extend_with plan chunk_20_30 w2) = inventory /\
       measure plan "test" pattern (cluster_replying 75 MergeOk) 0%Z 30%Z
         (extend_with plan chunk_20_30 w2) =
         (extend_with plan chunk_20_30 w2, inr 75%Z)) /\
    trace w =
      [Print (MsgShardVersion S (mkTimestamp 1 1));
       Print MsgWithoutMajorVersionBump;
       Acquire sem_at_collection_version;
       Print (MsgMerging 3 S "test.coll" 0%Z 30%Z);
       Release sem_at_collection_version] /\
    merge_ranges (trace w) = [(0%Z, 30%Z)] /\
    consecutive_chunks w = [] /\
    num_merges_performed (shard_entry w) = 1.
Proof.
  eexists _, _, _. split; [by vm_compute|].
  split; [by vm_compute|]. split; [by vm_compute|]. split; [by vm_compute|].
  split; [|by vm_compute].
  eexists. split; [by vm_compute|]. by vm_compute.
Qed.

(** C1, as the code behaves. In a run that commits, with an estimate of 64
    and a target of 128, the merge of [0, 20) is answered with [LockBusy]:
    the coroutine goes on to the next chunk, and has nevertheless counted one
    merge performed and moved the shard to the collection version. *)
Theorem lock_busy_merge_is_counted :
  exists t p w,
    main execute (env 128 120 LockBusy) [] = (t, inr p) /\
    workers p !! S = Some (Normal w) /\
    trace w =
      [Print (MsgShardVersion S (mkTimestamp 1 1));
       Print MsgWithoutMajorVersionBump;
       Command_dataSize "test" "test.coll" pattern 0%Z 20%Z;
       Acquire sem_at_collection_version;
       Command_mergeChunks "test.coll" 0%Z 20%Z LockBusy;
       Print (MsgLockWarning 0%Z 20%Z);
       Release sem_at_collection_version] /\
    consecutive_chunks w = [chunk_20_30] /\
    num_lock_busy_errors_encountered w = 1 /\
    num_merges_performed (shard_entry w) = 1 /\
    shard_is_at_collection_version w = true.
Proof.
  eexists _, _, _. split; [by vm_compute|]. split; [by vm_compute|].
  by vm_compute.
Qed.

(** A run that commits, with a target of 200 MB, in which [20, 30)
    continues a candidate of two chunks with an estimate of 64 MB each: the
    candidate of three chunks is evaluated. Measured at 150 MB, exactly 75%
    of the target, it is committed; measured at 220 MB, exactly 110%, it is
    committed; measured at 149 MB it is kept, with 149 as its estimate. *)
Lemma size_gate_boundaries_witness :
  let w := accumulating 128 in
  let request := Command_dataSize "test" "test.coll" pattern 0%Z 30%Z in
  (consecutive_chunks w = chunk_0_10 :: [chunk_10_20] /\
   chunk_max (List.last [chunk_10_20] chunk_0_10) = chunk_min chunk_20_30 /\
   le_pct (128 + 64) 200 90 = false) /\
  ((exists size,
      dataSize (cluster_replying 150 MergeOk) (length (trace w)) 0%Z 30%Z =
        DataSizeOk size /\
      150%Z = ceil_mb size /\ trace w ++ [request] = trace w ++ [request]) /\
   (100 * 150 = 75 * 200)%Z /\
   commits execute (cluster_replying 150 MergeOk) S w
     (consecutive_chunks w ++ [chunk_20_30]) (trace w ++ [request]) 0%Z 30%Z
     [] 0%Z
     (loop_body execute "test" pattern 200 (cluster_replying 150 MergeOk) S w
        chunk_20_30)) /\
  ((exists size,
      dataSize (cluster_replying 220 MergeOk) (length (trace w)) 0%Z 30%Z =
        DataSizeOk size /\
      220%Z = ceil_mb size /\ trace w ++ [request] = trace w ++ [request]) /\
   (0 <= 200)%Z /\ (100 * 220 = 110 * 200)%Z /\
   commits execute (cluster_replying 220 MergeOk) S w
     (consecutive_chunks w ++ [chunk_20_30]) (trace w ++ [request]) 0%Z 30%Z
     [] 0%Z
     (loop_body execute "test" pattern 200 (cluster_replying 220 MergeOk) S w
        chunk_20_30)) /\
  ((exists size,
      dataSize (cluster_replying 149 MergeOk) (length (trace w)) 0%Z 30%Z =
        DataSizeOk size /\
      149%Z = ceil_mb size /\ trace w ++ [request] = trace w ++ [request]) /\
   (100 * 149 < 75 * 200)%Z /\
   exists w',
     loop_body execute "test" pattern 200 (cluster_replying 149 MergeOk) S w
       chunk_20_30 = Normal w' /\
     consecutive_chunks w' = consecutive_chunks w ++ [chunk_20_30] /\
     estimated_size_of_consecutive_chunks w' = 149%Z /\
     trace w' = trace w ++ [request] /\
     shard_entry w' = shard_entry w /\
     shard_is_at_collection_version w' = shard_is_at_collection_version w).
Proof.
  intros w request.
  assert (Hmeasured : forall mb,
            mb = ceil_mb (mb * 1024 * 1024) ->
            exists size,
              dataSize (cluster_replying mb MergeOk) (length (trace w)) 0%Z 30%Z =
                DataSizeOk size /\
              mb = ceil_mb size /\ trace w ++ [request] = trace w ++ [request]).
  { intros mb Hmb. exists (mb * 1024 * 1024)%Z. by repeat split. }
  split; [by repeat split|].
  split; [|split].
  - split; [by apply Hmeasured|]. split; [lia|].
    refine (proj1 (proj2 (proj2 (size_gate_boundaries execute "test" pattern 200
              (cluster_replying 150 MergeOk) S w chunk_20_30
              chunk_0_10 [chunk_10_20] 150%Z (trace w ++ [request])
              eq_refl eq_refl eq_refl _))) _); [by apply Hmeasured|lia].
  - split; [by apply Hmeasured|]. split; [lia|]. split; [lia|].
    refine (proj2 (proj2 (proj2 (size_gate_boundaries execute "test" pattern 200
              (cluster_replying 220 MergeOk) S w chunk_20_30
              chunk_0_10 [chunk_10_20] 220%Z (trace w ++ [request])
              eq_refl eq_refl eq_refl _))) _ _); [by apply Hmeasured|lia..].
  - split; [by apply Hmeasured|]. split; [lia|].
    refine (proj1 (size_gate_boundaries execute "test" pattern 200
              (cluster_replying 149 MergeOk) S w chunk_20_30
              chunk_0_10 [chunk_10_20] 149%Z (trace w ++ [request])
              eq_refl eq_refl eq_refl _) _); [by apply Hmeasured|lia].
Defined.



(** Two merges on a shard below the collection version: after the first has
    succeeded, the second takes the semaphore of capacity 8. *)
Lemma version_bump_gate_at_most_once_witness :
  trace (final (merge_chunks_on_shard execute "test" pattern 128
                  (cluster_replying 120 MergeOk) S four_chunks
                  (Some (mkTimestamp 2 0)))) =
    [Print (MsgShardVersion S (mkTimestamp 1 1));
     Print MsgWithMajorVersionBump;
     Command_dataSize "test" "test.coll" pattern 0%Z 20%Z;
     Acquire sem_at_less_than_collection_version]
    ++ Command_mergeChunks "test.coll" 0%Z 20%Z MergeOk
    :: [Release sem_at_less_than_collection_version;
        Command_dataSize "test" "test.coll" pattern 20%Z 40%Z;
        Acquire sem_at_collection_version;
        Command_mergeChunks "test.coll" 20%Z 40%Z MergeOk;
        Release sem_at_collection_version] /\
  Forall (fun g => g = sem_at_collection_version)
    (acquired
       [Release sem_at_less_than_collection_version;
        Command_dataSize "test" "test.coll" pattern 20%Z 40%Z;
        Acquire sem_at_collection_version;
        Command_mergeChunks "test.coll" 20%Z 40%Z MergeOk;
        Release sem_at_collection_version]).
Proof.
  split; [reflexivity|].
  refine (proj1 (proj2 (proj2 (proj2 (version_bump_gate_at_most_once execute
            "test" pattern 128 (cluster_replying 120 MergeOk) S four_chunks
            (Some (mkTimestamp 2 0))))))
            [Print (MsgShardVersion S (mkTimestamp 1 1));
             Print MsgWithMajorVersionBump;
             Command_dataSize "test" "test.coll" pattern 0%Z 20%Z;
             Acquire sem_at_less_than_collection_version]
            "test.coll"%string 0%Z 20%Z _ _).
  reflexivity.
Defined.

(** A shard that owns a single chunk. *)
Lemma fewer_than_two_chunks_returns_at_once_witness :
  shard_to_chunks (load_snapshot [chunk_0_10]) !! S =
    Some {| chunks := [chunk_0_10]; num_merges_performed := 0 |} /\
  length (chunks {| chunks := [chunk_0_10]; num_merges_performed := 0 |}) < 2 /\
  exists w,
    merge_chunks_on_shard execute "test" pattern 128
      (cluster_replying 120 MergeOk) S
      {| chunks := [chunk_0_10]; num_merges_performed := 0 |}
      (Some (mkTimestamp 1 0)) = Normal w /\
    trace w = [] /\
    shard_entry w = {| chunks := [chunk_0_10]; num_merges_performed := 0 |} /\
    num_merges_performed (shard_entry w) = 0.
Proof.
  split; [reflexivity|]. split; [simpl; lia|].
  apply (fewer_than_two_chunks_returns_at_once execute "test" pattern 128
           (cluster_replying 120 MergeOk) S [chunk_0_10]);
    [reflexivity | simpl; lia].
Defined.

(** The merge of the scenario is backed by the three chunks of [S]. *)
Lemma merges_are_contiguous_on_one_shard_witness :
  exists t p f,
    main plan (env 64 75 MergeOk) [] = (t, inr p) /\
    workers p !! S = Some f /\
    (0%Z, 30%Z) ∈ merge_ranges (trace (final f)) /\
    merge_ranges t = [] /\
    exists entry before run after,
      shard_to_chunks (snapshot p) !! S = Some entry /\
      chunks entry = before ++ run ++ after /\
      2 <= length run /\
      contiguous run /\
      bounds run = Some (0%Z, 30%Z) /\
      Forall (fun c => chunk_shard c = S) run.
Proof.
  eexists _, _, _.
  split; [by vm_compute|]. split; [by vm_compute|].
  split; [vm_compute; apply list_elem_of_here|].
  eapply (merges_are_contiguous_on_one_shard plan (env 64 75 MergeOk));
    [by vm_compute | by vm_compute | vm_compute; apply list_elem_of_here].
Defined.

(** The dry run of the scenario. *)
Lemma dry_run_sends_no_command_witness :
  dryrun plan = true /\
  Forall (fun ev => is_command ev = false) (main plan (env 64 75 MergeOk) []).1.
Proof.
  split; [reflexivity|].
  apply (dry_run_sends_no_command plan (env 64 75 MergeOk)). reflexivity.
Defined.

(** A namespace that is not sharded. *)
Lemma unsharded_namespace_raises_TypeError_witness :
  split_ns (ns plan) = Some ("test"%string, "coll"%string) /\
  collections_find_one env_not_sharded (ns plan) = None /\
  main plan env_not_sharded [] =
    ([Read (FindCollection (ns plan))], inl TypeError).
Proof.
  split; [reflexivity|]. split; [reflexivity|].
  apply (unsharded_namespace_raises_TypeError plan env_not_sharded
           "test" "coll"); reflexivity.
Defined.

(** A dry run on a cluster without a [chunksize] document. *)
Lemma missing_chunksize_fails_before_scan_witness :
  dryrun plan = true /\
  chunk_size_doc env_no_chunksize = None /\
  exists t e,
    main plan env_no_chunksize [] = (t, inl e) /\
    unstructured e = true /\
    (forall n, Read (FindChunks n) ∉ t) /\
    (forall db coll doc,
       split_ns (ns plan) = Some (db, coll) ->
       collections_find_one env_no_chunksize (ns plan) = Some doc ->
       e = TypeError /\
       exists before,
         t = before ++ [Read (FindSetting "balancer");
                        Read (FindSetting "autosplit");
                        Read (FindSetting "chunksize")]).
Proof.
  split; [reflexivity|]. split; [reflexivity|].
  apply (missing_chunksize_fails_before_scan plan env_no_chunksize);
    reflexivity.
Defined.

End ScenarioChecks.

(** * Further properties of the code *)

Section Arithmetic.

(** [split('.', 1)] cuts a namespace at its first dot: it yields a database
    name without a dot and the rest, and joining the two with a dot gives the
    namespace back. *)
Theorem split_ns_first_dot s db coll :
  split_ns s = Some (db, coll) <->
  s = String.append db (String "."%char coll) /\ has_dot db = false.
Proof.
  revert db coll. induction s as [|a s IH]; intros db coll; simpl.
  - split; [done|]. intros [Hs _]. by destruct db.
  - destruct (Ascii.eqb a ".") eqn:Ha.
    + apply Ascii.eqb_eq in Ha as ->. split.
      * by intros [= <- <-].
      * intros [Hs Hdot]. destruct db as [|b db]; simpl in *.
        -- by injection Hs as ->.
        -- injection Hs as <- _. by rewrite Ascii.eqb_refl in Hdot.
    + destruct (split_ns s) as [[db' coll']|] eqn:Hsplit.
      * split.
        -- intros [= <- <-]. destruct (proj1 (IH db' coll') eq_refl) as [-> Hdot].
           simpl. by rewrite Ha.
        -- intros [Hs Hdot]. destruct db as [|b db]; simpl in *.
           ++ injection Hs as ->. by rewrite Ascii.eqb_refl in Ha.
           ++ injection Hs as <- Hs. rewrite Ha in Hdot. simpl in Hdot.
              assert (Some (db', coll') = Some (db, coll)) as [= -> ->]; [|done].
              by apply IH.
      * split; [done|]. intros [Hs Hdot]. destruct db as [|b db]; simpl in *.
        -- injection Hs as ->. by rewrite Ascii.eqb_refl in Ha.
        -- injection Hs as <- Hs. rewrite Ha in Hdot. simpl in Hdot.
           assert (None = Some (db, coll)); [|done]. by apply IH.
Qed.

(** A namespace without a dot cannot be split, which is the [IndexError] of
    line 22, and only such a namespace. *)
Theorem split_ns_none s : split_ns s = None <-> has_dot s = false.
Proof.
  induction s as [|a s IH]; simpl; [done|].
  destruct (Ascii.eqb a "."); simpl; [done|].
  destruct (split_ns s) as [[db coll]|]; [|tauto].
  split; [done|]. intros Hs. by apply IH in Hs.
Qed.

(** An integer of less than 2^53 in absolute value is a double. *)
Lemma float_of_int_exact size :
  (Z.abs size < 2 ^ 53)%Z -> float_of_int size = size.
Proof.
  intros Hsize. unfold float_of_int.
  assert (Z.log2 (Z.abs size) + 1 <= 53)%Z as Hbits.
  { destruct (decide (Z.abs size = 0%Z)) as [->|Hpos]; [done|].
    assert (Z.log2 (Z.abs size) < 53)%Z; [|lia].
    apply Z.log2_lt_pow2; lia. }
  by rewrite (proj2 (Z.leb_le _ _) Hbits).
Qed.

(** Below 2^53 bytes the size in megabytes is rounded up: it is the least
    number of whole megabytes that holds [size] bytes. *)
Theorem ceil_mb_least size :
  (Z.abs size < 2 ^ 53)%Z ->
  (size <= ceil_mb size * (1024 * 1024))%Z /\
  ((ceil_mb size - 1) * (1024 * 1024) < size)%Z.
Proof.
  intros Hsize. unfold ceil_mb. rewrite float_of_int_exact by done.
  pose proof (Z.div_mod (- size) (1024 * 1024) ltac:(lia)) as Hdiv.
  pose proof (Z.mod_pos_bound (- size) (1024 * 1024) ltac:(lia)) as Hmod.
  lia.
Qed.

End Arithmetic.

Section LoaderMore.

Context {Key : Type} `{EqDecision Key}.

Implicit Types (c : Chunk Key) (cs : list (Chunk Key)) (s : Snapshot Key)
  (t : list (Event Key)).

Lemma ts_gt_spec a b :
  ts_gt a b = true <->
  (time b < time a \/ (time a = time b /\ inc b < inc a))%Z.
Proof.
  unfold ts_gt. rewrite orb_true_iff, andb_true_iff.
  rewrite !Z.ltb_lt, Z.eqb_eq. tauto.
Qed.

Lemma ts_gt_false a b :
  ts_gt a b = false <->
  (time a < time b \/ (time a = time b /\ inc a <= inc b))%Z.
Proof.
  rewrite <- not_true_iff_false, ts_gt_spec. lia.
Qed.

(** The scan groups the chunks by owner: a shard has an entry exactly when it
    owns a chunk, and the entry lists the chunks it owns in the order of the
    scan, with no merge performed. *)
Theorem scan_groups_by_owner cs shard :
  shard_to_chunks (load_snapshot cs) !! shard =
  match filter (fun c => chunk_shard c = shard) cs with
  | [] => None
  | owned => Some {| chunks := owned; num_merges_performed := 0 |}
  end.
Proof. apply load_snapshot_lookup. Qed.

(** Every chunk of the scan is counted once. *)
Theorem scan_counts_every_chunk cs :
  num_chunks_processed (load_snapshot cs) = length cs.
Proof.
  induction cs as [|c cs IH] using rev_ind; [done|].
  rewrite load_snapshot_snoc, length_app. simpl. lia.
Qed.

(** The collection version is the greatest [lastmod] of the chunks: it is
    the version of one of them and none has a greater one; there is none
    exactly when there is no chunk. *)
Theorem collection_version_is_greatest cs :
  match collectionVersion (load_snapshot cs) with
  | None => cs = []
  | Some v =>
      (exists c, c ∈ cs /\ chunk_lastmod c = v) /\
      (forall c, c ∈ cs -> ts_gt (chunk_lastmod c) v = false)
  end.
Proof.
  induction cs as [|c cs IH] using rev_ind; [done|].
  rewrite load_snapshot_snoc. simpl.
  destruct (collectionVersion (load_snapshot cs)) as [v|].
  - destruct IH as [(c0 & Hc0 & Hv) Hmax].
    destruct (ts_gt (chunk_lastmod c) v) eqn:Hgt.
    + split; [exists c; split; [set_solver|done]|].
      intros c' [Hc'| ->%list_elem_of_singleton]%elem_of_app.
      * specialize (Hmax c' Hc'). apply ts_gt_spec in Hgt.
        apply ts_gt_false in Hmax. apply ts_gt_false. lia.
      * apply ts_gt_false. lia.
    + split; [exists c0; split; [set_solver|done]|].
      intros c' [Hc'| ->%list_elem_of_singleton]%elem_of_app; auto.
  - subst cs. simpl.
    assert (ts_gt (chunk_lastmod c) (chunk_lastmod c) = false) as ->
      by (apply ts_gt_false; lia).
    split; [exists c; split; [set_solver|done]|].
    intros c' ->%list_elem_of_singleton. apply ts_gt_false. lia.
Qed.

Lemma scan_cons num_chunks c cs s :
  scan num_chunks (c :: cs) s =
  ((if S (num_chunks_processed s) mod 10 =? 0
    then if num_chunks =? 0 then raise ZeroDivisionError
         else tell (Print (MsgProgress (S (num_chunks_processed s)) num_chunks))
    else mret tt) ;;
   scan num_chunks cs (scan_chunk s c)).
Proof. reflexivity. Qed.

(** With a positive count of chunks the scan always ends, with the snapshot
    of the chunks it read. *)
Lemma scan_succeeds num_chunks cs s t :
  num_chunks <> 0 ->
  exists t', scan num_chunks cs s t = (t', inr (fold_left scan_chunk cs s)).
Proof.
  intros Hn. revert s t. induction cs as [|c cs IH]; intros s t; [simpl; eauto|].
  rewrite scan_cons, bind_run. cbn [fold_left].
  destruct (_ =? 0) eqn:Hten; [|apply IH].
  destruct (num_chunks =? 0) eqn:Hzero; [by apply Nat.eqb_eq in Hzero|].
  apply IH.
Qed.

(** Fewer than ten chunks are scanned without any report of progress. *)
Lemma scan_short num_chunks cs s t :
  num_chunks_processed s + length cs < 10 ->
  scan num_chunks cs s t = (t, inr (fold_left scan_chunk cs s)).
Proof.
  revert s t. induction cs as [|c cs IH]; intros s t Hlen; [done|].
  rewrite scan_cons, bind_run. cbn [fold_left length] in *.
  rewrite (Nat.mod_small (S (num_chunks_processed s))) by lia.
  apply IH. simpl. lia.
Qed.

(** When the count of line 24 was zero and the scan nevertheless reaches a
    tenth chunk, the report of progress divides by zero: the scan ends with
    [ZeroDivisionError], with nothing printed. *)
Lemma scan_divides_by_zero cs s t :
  num_chunks_processed s < 10 ->
  10 <= num_chunks_processed s + length cs ->
  scan 0 cs s t = (t, inl ZeroDivisionError).
Proof.
  revert s t. induction cs as [|c cs IH]; intros s t Hk Hlen; [simpl in *; lia|].
  rewrite scan_cons, bind_run. cbn [length] in *.
  destruct (decide (S (num_chunks_processed s) = 10)) as [Hten|Hten].
  - by rewrite Hten.
  - rewrite (Nat.mod_small (S (num_chunks_processed s))) by lia.
    apply IH; simpl; lia.
Qed.

(** The scan of [initialise] fails only by that division: it ends with the
    snapshot of the chunks unless the count of line 24 was zero and there are
    ten chunks or more, in which case it raises [ZeroDivisionError] right
    after the query. *)
Theorem initialise_outcome args (env : Env Key) t :
  let cs := chunks_find env (ns args) in
  if decide (chunks_count_documents env (ns args) = 0 /\ 10 <= length cs)
  then initialise args env t =
         (t ++ [Read (FindChunks (ns args))], inl ZeroDivisionError)
  else exists t', initialise args env t = (t', inr (load_snapshot cs)).
Proof.
  intros cs. unfold initialise. rewrite bind_run. simpl. rewrite bind_run.
  fold cs. case_decide as Hcase.
  - destruct Hcase as [-> Hlen]. by rewrite scan_divides_by_zero by (simpl; lia).
  - destruct (decide (chunks_count_documents env (ns args) = 0)) as [Hzero|Hpos].
    + assert (length cs < 10) as Hshort by lia.
      rewrite scan_short by done. simpl. eauto.
    + destruct (scan_succeeds _ cs empty_snapshot
                  (t ++ [Read (FindChunks (ns args))]) Hpos) as [t' ->].
      simpl. eauto.
Qed.

End LoaderMore.

Section MainMore.

Context {Key : Type} `{EqDecision Key}.

Implicit Types (env : Env Key) (p : Phase1 Key) (t : list (Event Key)).

Lemma connect_commit args env t0 t n :
  dryrun args = false ->
  connect args env t0 = (t, inr n) ->
  is_mongos env = true /\ yes_no env = true.
Proof.
  intros Hdry. open_script. rewrite Hdry.
  destruct (split_ns (ns args)) as [[db coll]|]; [|done].
  destruct (collections_find_one env (ns args)); [|done].
  by destruct (is_mongos env), (yes_no env).
Qed.

Lemma sanity_checks_commit args env t0 t size :
  dryrun args = false ->
  sanity_checks args env t0 = (t, inr size) ->
  (exists d, balancer_doc env = Some d /\ mode d = "off"%string) /\
  (exists d, auto_splitter_doc env = Some d /\ enabled d = false) /\
  (exists d, chunk_size_doc env = Some d /\ value d = size /\ (128 <= size)%Z).
Proof.
  intros Hdry. open_script. rewrite Hdry. simpl.
  destruct (balancer_doc env) as [[m]|]; [|done]. simpl.
  destruct (String.eqb m "off") eqn:Hm; [|done]. apply String.eqb_eq in Hm.
  destruct (auto_splitter_doc env) as [[[]]|]; try done. simpl.
  destruct (chunk_size_doc env) as [[v]|]; [|done]. simpl.
  destruct (v <? 128)%Z eqn:Hv; [done|]. apply Z.ltb_ge in Hv.
  intros [= _ <-]. eauto 10.
Qed.

(** A run that commits reaches Phase 1 only when the script talks to a
    mongos, the user has confirmed, the balancer is off, the auto-splitter
    is disabled and the chunk size is at least 128 MB, which is then the
    target. *)
Theorem commit_run_passes_every_check args env t p :
  dryrun args = false ->
  main args env [] = (t, inr p) ->
  is_mongos env = true /\
  yes_no env = true /\
  (exists d, balancer_doc env = Some d /\ mode d = "off"%string) /\
  (exists d, auto_splitter_doc env = Some d /\ enabled d = false) /\
  (exists d, chunk_size_doc env = Some d /\ value d = target p /\
             (128 <= target p)%Z).
Proof.
  intros Hdry. unfold main. rewrite bind_run.
  destruct (connect args env []) as [t1 [e|n]] eqn:Hconnect; [done|].
  rewrite bind_run.
  destruct (sanity_checks args env t1) as [t2 [e|size]] eqn:Hsanity; [done|].
  rewrite bind_run. destruct (initialise args env t2) as [t3 [e|snap]]; [done|].
  intros [= _ <-]. simpl.
  destruct (connect_commit _ _ _ _ _ Hdry Hconnect) as [? ?].
  destruct (sanity_checks_commit _ _ _ _ _ Hdry Hsanity) as (? & ? & ?).
  done.
Qed.

(** When the user does not confirm, a run that commits ends with
    [KeyboardInterrupt] right after the prompt: no setting and no chunk has
    been read. *)
Theorem declined_prompt_stops_the_run args env db coll doc :
  dryrun args = false ->
  split_ns (ns args) = Some (db, coll) ->
  collections_find_one env (ns args) = Some doc ->
  is_mongos env = true ->
  yes_no env = false ->
  main args env [] =
    ([Read (FindCollection (ns args));
      Read (CountChunks (ns args));
      Print (MsgCollection (ns args) (key doc)
               (chunks_count_documents env (ns args)));
      CheckIsMongos;
      Prompt],
     inl KeyboardInterrupt).
Proof.
  intros Hdry Hns Hdoc Hmongos Hno. open_script.
  by rewrite Hns, Hdoc, Hdry, Hmongos, Hno.
Qed.

(** A dry run enforces none of the checks: with a sharded namespace and a
    [chunksize] document it reaches Phase 1 whatever the balancer, the
    auto-splitter, the size and the mongos check say, and the target is the
    size as it is, unless the progress report divides by zero. *)
Theorem dry_run_enforces_no_check args env db coll doc d :
  dryrun args = true ->
  split_ns (ns args) = Some (db, coll) ->
  collections_find_one env (ns args) = Some doc ->
  chunk_size_doc env = Some d ->
  ~ (chunks_count_documents env (ns args) = 0 /\
     10 <= length (chunks_find env (ns args))) ->
  exists t p,
    main args env [] = (t, inr p) /\
    target p = value d /\
    snapshot p = load_snapshot (chunks_find env (ns args)).
Proof.
  intros Hdry Hns Hdoc Hsize Hcount. unfold main.
  rewrite bind_run, (connect_dry_run _ _ Hdry), Hns, Hdoc.
  rewrite bind_run, (sanity_checks_dry_run _ _ _ Hdry), Hsize.
  rewrite bind_run.
  match goal with |- context [initialise args env ?t0] =>
    pose proof (initialise_outcome args env t0) as Hinit end.
  cbv zeta in Hinit. rewrite decide_False in Hinit by done.
  destruct Hinit as [t' ->]. eauto.
Qed.

End MainMore.

Section WorkerMore.

Context {Key : Type} `{EqDecision Key}.

Variable args : Args.
Variable db : string.
Variable shardKeyPattern : KeyPattern.
Variable target_chunk_size : Z.
Variable cluster : Cluster Key.
Variable shard : string.

Implicit Types (c : Chunk Key) (cs : list (Chunk Key)) (w : Worker Key)
  (t : list (Event Key)).

Local Abbreviation loop_body :=
  (loop_body args db shardKeyPattern target_chunk_size cluster shard).
Local Abbreviation run_loop :=
  (run_loop args db shardKeyPattern target_chunk_size cluster shard).
Local Abbreviation merge_chunks_on_shard :=
  (merge_chunks_on_shard args db shardKeyPattern target_chunk_size cluster shard).

(** *** What the counter counts *)

Lemma loop_body_counts n0 w c w' :
  num_merges_performed (shard_entry w) = n0 + length (merge_ranges (trace w)) ->
  loop_body w c = Normal w' ->
  num_merges_performed (shard_entry w') = n0 + length (merge_ranges (trace w')) /\
  chunks (shard_entry w') = chunks (shard_entry w).
Proof.
  intros Hw. unfold merge_ranges in *. branches; intros; simplify_eq/=.
  all: rewrite ?omap_app, ?length_app; simpl; rewrite ?Nat.add_0_r;
    split; [lia|done].
Qed.

Lemma run_loop_counts n0 cs w w' :
  num_merges_performed (shard_entry w) = n0 + length (merge_ranges (trace w)) ->
  run_loop w cs = Normal w' ->
  num_merges_performed (shard_entry w') = n0 + length (merge_ranges (trace w')) /\
  chunks (shard_entry w') = chunks (shard_entry w).
Proof.
  revert w. induction cs as [|c cs IH]; intros w Hw; simpl.
  - by intros [= <-].
  - destruct (loop_body w c) as [w1|e w1] eqn:Hbody; [|done].
    destruct (loop_body_counts _ _ _ _ Hw Hbody) as [Hw1 Hcs]. intros Hrun.
    destruct (IH w1 Hw1 Hrun) as [? ?]. split; [done|congruence].
Qed.

(** A coroutine that ends without an exception has added to
    [num_merges_performed] the number of merges in its trace, whether they
    succeeded, were answered with [LockBusy] or were only printed by a dry
    run; the chunks of the entry are as they were. *)
Theorem counter_counts_every_attempt entry v w :
  merge_chunks_on_shard entry v = Normal w ->
  num_merges_performed (shard_entry w) =
    num_merges_performed entry + length (merge_ranges (trace w)) /\
  chunks (shard_entry w) = chunks entry.
Proof.
  destruct (merge_chunks_on_shard_cases args db shardKeyPattern target_chunk_size
              cluster shard entry v) as [Hfinal|(b & sv & ->)].
  - intros Hw. rewrite Hw in Hfinal. simpl in Hfinal. subst w. simpl.
    split; [lia|done].
  - intros Hrun. eapply run_loop_counts in Hrun; [exact Hrun|].
    destruct b; simpl; lia.
Qed.

(** *** The warning about locks *)

Lemma loop_body_lock_busy w c :
  num_lock_busy_errors_encountered w = count_events is_lock_busy (trace w) ->
  (count_events is_lock_warning (trace w) <= 1 /\
   (count_events is_lock_warning (trace w) = 0 <->
    num_lock_busy_errors_encountered w = 0)) ->
  let w' := final (loop_body w c) in
  num_lock_busy_errors_encountered w' = count_events is_lock_busy (trace w') /\
  (count_events is_lock_warning (trace w') <= 1 /\
   (count_events is_lock_warning (trace w') = 0 <->
    num_lock_busy_errors_encountered w' = 0)).
Proof.
  unfold count_events. intros Hbusy Hwarn. branches.
  all: rewrite ?List.filter_app, ?length_app; simpl;
    repeat match goal with
      | H : (_ =? _)%Z = _ |- _ => rewrite H
      | H : (_ =? _)%nat = true |- _ => apply Nat.eqb_eq in H
      | H : (_ =? _)%nat = false |- _ => apply Nat.eqb_neq in H
      end; simpl; lia.
Qed.

Lemma run_loop_lock_busy cs w :
  num_lock_busy_errors_encountered w = count_events is_lock_busy (trace w) ->
  (count_events is_lock_warning (trace w) <= 1 /\
   (count_events is_lock_warning (trace w) = 0 <->
    num_lock_busy_errors_encountered w = 0)) ->
  let w' := final (run_loop w cs) in
  num_lock_busy_errors_encountered w' = count_events is_lock_busy (trace w') /\
  (count_events is_lock_warning (trace w') <= 1 /\
   (count_events is_lock_warning (trace w') = 0 <->
    num_lock_busy_errors_encountered w' = 0)).
Proof.
  revert w. induction cs as [|c cs IH]; intros w Hbusy Hwarn; simpl; [done|].
  destruct (loop_body_lock_busy w c Hbusy Hwarn) as [Hbusy' Hwarn'].
  destruct (loop_body w c) as [w1|e w1]; simpl in *; auto.
Qed.

(** The coroutine of a shard counts every [mergeChunks] that was answered
    with [LockBusy] and warns about locks once, after the first of them:
    there is one warning in its trace when there was such an answer and none
    otherwise. *)
Theorem lock_warning_printed_once entry v :
  let w := final (merge_chunks_on_shard entry v) in
  num_lock_busy_errors_encountered w = count_events is_lock_busy (trace w) /\
  count_events is_lock_warning (trace w) =
    (if decide (count_events is_lock_busy (trace w) = 0) then 0 else 1).
Proof.
  intros w.
  assert (num_lock_busy_errors_encountered w = count_events is_lock_busy (trace w) /\
          (count_events is_lock_warning (trace w) <= 1 /\
           (count_events is_lock_warning (trace w) = 0 <->
            num_lock_busy_errors_encountered w = 0))) as [Hbusy Hwarn].
  { subst w.
    destruct (merge_chunks_on_shard_cases args db shardKeyPattern
                target_chunk_size cluster shard entry v) as [->|(b & sv & ->)].
    - unfold count_events. simpl. lia.
    - apply run_loop_lock_busy; destruct b; unfold count_events; simpl; lia. }
  split; [done|]. rewrite <- Hbusy. case_decide; lia.
Qed.

(** *** The shape of a trace *)






(** *** A shard without neighbours *)

Lemma run_loop_scattered cs w :
  match consecutive_chunks w with
  | [] => scattered cs
  | [p] => scattered (p :: cs)
  | _ => False
  end ->
  exists w',
    run_loop w cs = Normal w' /\
    trace w' = trace w /\
    shard_entry w' = shard_entry w.
Proof.
  revert w. induction cs as [|c cs IH]; intros w Hw; simpl; [eauto|].
  assert (loop_body w c = Normal (restart_with args c w)) as ->.
  { open_loop_body. destruct (consecutive_chunks w) as [|p [|q rest]]; [done| |done].
    simpl. destruct Hw as [Hbreak _].
    by rewrite bool_decide_eq_false_2. }
  destruct (IH (restart_with args c w)) as (w' & ? & ? & ?); [|eauto].
  simpl. by destruct (consecutive_chunks w) as [|p [|q rest]], cs; simpl in *;
    try tauto.
Qed.

(** On a shard where no chunk begins where the one before it ends, the
    coroutine scans every chunk and does nothing: beyond the two lines about
    the version of the shard its trace is empty, so that it requests no size,
    takes no semaphore and merges nothing, and it leaves the entry as it
    was. *)
Theorem scattered_shard_is_left_alone entry v :
  scattered (chunks entry) ->
  let w := final (merge_chunks_on_shard entry v) in
  shard_entry w = entry /\
  (trace w = [] \/
   exists shard_version at_version,
     trace w = [Print (MsgShardVersion shard shard_version);
                Print (if at_version : bool then MsgWithoutMajorVersionBump
                       else MsgWithMajorVersionBump)]).
Proof.
  intros Hscattered w. subst w.
  destruct (merge_chunks_on_shard_cases args db shardKeyPattern target_chunk_size
              cluster shard entry v) as [->|(b & sv & ->)]; [by split; [|left]|].
  match goal with |- context [run_loop ?w0 ?cs] =>
    destruct (run_loop_scattered cs w0 Hscattered) as (w' & -> & Ht & He) end.
  simpl in *. split; [done|]. right. eauto.
Qed.

(** *** The version of a shard *)

Lemma fold_max_by_lastmod (best : Chunk Key) rest :
  let m := max_by_lastmod best rest in
  (m = best \/ m ∈ rest) /\
  ts_gt (chunk_lastmod best) (chunk_lastmod m) = false /\
  (forall c, c ∈ rest -> ts_gt (chunk_lastmod c) (chunk_lastmod m) = false).
Proof.
  unfold max_by_lastmod. revert best.
  induction rest as [|a rest IH]; intros best; simpl.
  - split; [by left|]. split; [apply ts_gt_false; lia|].
    intros c Hc. by apply elem_of_nil in Hc.
  - destruct (ts_gt (chunk_lastmod a) (chunk_lastmod best)) eqn:Hgt.
    + destruct (IH a) as ([Hm|Hm] & Ha & Hrest).
      * rewrite Hm in *. split; [right; apply list_elem_of_here|]. split.
        -- apply ts_gt_spec in Hgt. apply ts_gt_false. lia.
        -- intros c [->|Hc]%elem_of_cons; auto.
      * split; [right; by apply list_elem_of_further|]. split.
        -- apply ts_gt_spec in Hgt. apply ts_gt_false in Ha.
           apply ts_gt_false. lia.
        -- intros c [->|Hc]%elem_of_cons; auto.
    + destruct (IH best) as ([Hm|Hm] & Hbest & Hrest).
      * rewrite Hm in *. split; [by left|]. split; [done|].
        intros c [->|Hc]%elem_of_cons; auto.
      * split; [right; by apply list_elem_of_further|]. split; [done|].
        intros c [->|Hc]%elem_of_cons; auto.
        apply ts_gt_false in Hgt, Hbest. apply ts_gt_false. lia.
Qed.

(** The chunk at the shard version is a chunk of the shard, and none of its
    chunks has a greater [lastmod]. *)
Theorem shard_version_is_greatest (first : Chunk Key) rest :
  max_by_lastmod first rest ∈ first :: rest /\
  (forall c, c ∈ first :: rest ->
     ts_gt (chunk_lastmod c) (chunk_lastmod (max_by_lastmod first rest)) = false).
Proof.
  destruct (fold_max_by_lastmod first rest) as (Hin & Hfirst & Hrest).
  split.
  - destruct Hin as [->|Hin];
      [apply list_elem_of_here|by apply list_elem_of_further].
  - intros c [->|Hc]%elem_of_cons; auto.
Qed.

(** *** Merges do not overlap *)

Lemma segmented_app (all more : list (Chunk Key)) ranges :
  segmented all ranges -> segmented (all ++ more) ranges.
Proof.
  revert all. induction ranges as [|r ranges IH]; intros all; [done|].
  intros (before & run & after & -> & Hlen & Hc & Hb & Hlater).
  exists before, run, (after ++ more). rewrite <- !app_assoc. auto 10.
Qed.

Lemma segmented_snoc (all run : list (Chunk Key)) ranges range :
  segmented all ranges ->
  2 <= length run ->
  contiguous run ->
  bounds run = Some range ->
  segmented (all ++ run) (ranges ++ [range]).
Proof.
  intros Hall Hlen Hc Hb. revert all Hall.
  induction ranges as [|r ranges IH]; intros all Hall; simpl.
  - exists all, run, []. by rewrite app_nil_r.
  - destruct Hall as (before & run1 & after & -> & Hlen1 & Hc1 & Hb1 & Hlater).
    exists before, run1, (after ++ run). rewrite <- !app_assoc. auto 10.
Qed.

Lemma consumed_ok_final scanned w :
  consumed_ok scanned w -> segmented scanned (merge_ranges (trace w)).
Proof. intros (consumed & -> & _ & Hseg). by apply segmented_app. Qed.

(** What one iteration does to the candidate and to the merges. *)
Lemma loop_body_summary w c :
  exists merged,
    merge_ranges (trace (final (loop_body w c))) =
      merge_ranges (trace w) ++ merged /\
    match consecutive_chunks w with
    | [] =>
        merged = [] /\
        forall w', loop_body w c = Normal w' -> consecutive_chunks w' = [c]
    | first :: rest =>
        if decide (chunk_max (List.last rest first) = chunk_min c) then
          (merged = [] /\
           forall w', loop_body w c = Normal w' ->
                      consecutive_chunks w' = consecutive_chunks w ++ [c]) \/
          (exists range,
             bounds (consecutive_chunks w ++ [c]) = Some range /\
             merged = [range] /\
             forall w', loop_body w c = Normal w' -> consecutive_chunks w' = [])
        else if decide (rest = []) then
          merged = [] /\
          forall w', loop_body w c = Normal w' -> consecutive_chunks w' = [c]
        else
          (merged = [] /\ exists e w', loop_body w c = Raised e w') \/
          (merged = [(chunk_min first, chunk_max (List.last rest first))] /\
           forall w', loop_body w c = Normal w' -> consecutive_chunks w' = [c])
    end.
Proof.
  unfold merge_ranges. branches.
  all: repeat match goal with
         | H : bool_decide _ = true |- _ => apply bool_decide_eq_true in H
         | H : bool_decide _ = false |- _ => apply bool_decide_eq_false in H
         | H : _ && false = true |- _ => by rewrite andb_false_r in H
         end.
  all: try done.
  all: rewrite ?omap_app; simpl; rewrite ?app_nil_r, <- ?app_assoc; simpl.
  all: repeat match goal with
         | Hc : consecutive_chunks ?w = _, Hb : bounds (consecutive_chunks ?w ++ _) = _
           |- _ => rewrite Hc in Hb; simpl in Hb
         end.
  all: try (exists []; rewrite app_nil_r; split; [reflexivity|];
            first [ by split; [|intros; simplify_eq/=]
                  | by left; split; [|intros; simplify_eq/=;
                                      repeat match goal with
                                        | Hc : consecutive_chunks _ = _ |- _ =>
                                            rewrite Hc
                                        end]
                  | by left; split; eauto ]).
  all: try (eexists [_]; split; [reflexivity|];
            first [ by right; eexists; split; [|split; [|intros; simplify_eq/=]]
                  | by right; split; [|intros; simplify_eq/=] ]).
  exfalso. match goal with
           | Hl : S (length ?l) = 1, Hn : ?l <> [] |- _ => by destruct l
           end.
Qed.

Lemma loop_body_segmented scanned w c :
  consumed_ok scanned w ->
  segmented (scanned ++ [c]) (merge_ranges (trace (final (loop_body w c)))) /\
  (forall w', loop_body w c = Normal w' -> consumed_ok (scanned ++ [c]) w').
Proof.
  intros (consumed & -> & Hc & Hseg).
  destruct (loop_body_summary w c) as (merged & Hranges & Hcase).
  rewrite Hranges.
  assert (Hsame : segmented (consumed ++ consecutive_chunks w)
                    (merge_ranges (trace w))) by (by apply segmented_app).
  destruct (consecutive_chunks w) as [|first rest] eqn:Hcand.
  { destruct Hcase as [-> Hnext]. rewrite ?app_nil_r in *. split.
    - by apply segmented_app.
    - intros w' Hw'. rewrite Hw' in Hranges. simpl in Hranges. exists consumed. rewrite Hranges, ?app_nil_r, (Hnext w' Hw').
      done. }
  case_decide as Hlast.
  - assert (Hall : contiguous ((first :: rest) ++ [c]))
      by (by eapply contiguous_snoc).
    destruct Hcase as [[-> Hnext]|(range & Hb & -> & Hnext)].
    + rewrite ?app_nil_r. split; [by apply segmented_app|].
      intros w' Hw'. rewrite Hw' in Hranges. simpl in Hranges. exists consumed.
      rewrite Hranges, ?app_nil_r, (Hnext w' Hw'), <- app_assoc. done.
    + assert (segmented ((consumed ++ first :: rest) ++ [c])
                (merge_ranges (trace w) ++ [range])) as Hnew.
      { rewrite <- app_assoc. apply segmented_snoc; try done.
        rewrite length_app. simpl. lia. }
      split; [done|]. intros w' Hw'. rewrite Hw' in Hranges. simpl in Hranges. exists ((consumed ++ first :: rest) ++ [c]).
      rewrite Hranges, (Hnext w' Hw'), ?app_nil_r. done.
  - case_decide as Hrest.
    + destruct Hcase as [-> Hnext]. rewrite ?app_nil_r.
      split; [by apply segmented_app|]. intros w' Hw'. rewrite Hw' in Hranges. simpl in Hranges.
      exists (consumed ++ first :: rest).
      rewrite Hranges, ?app_nil_r, (Hnext w' Hw'). done.
    + destruct Hcase as [[-> (e & w1 & Hraised)]|[-> Hnext]].
      * rewrite ?app_nil_r. split; [by apply segmented_app|].
        intros w' Hw'. congruence.
      * assert (segmented (consumed ++ first :: rest)
                  (merge_ranges (trace w) ++
                   [(chunk_min first, chunk_max (List.last rest first))]))
          as Hnew.
        { apply segmented_snoc; try done. destruct rest; simpl in *; [done|lia]. }
        split; [by apply segmented_app|]. intros w' Hw'. rewrite Hw' in Hranges. simpl in Hranges.
        exists (consumed ++ first :: rest). rewrite Hranges, (Hnext w' Hw').
        done.
Qed.

Lemma run_loop_segmented cs scanned w :
  consumed_ok scanned w ->
  segmented (scanned ++ cs) (merge_ranges (trace (final (run_loop w cs)))).
Proof.
  revert scanned w. induction cs as [|c cs IH]; intros scanned w Hw.
  - rewrite app_nil_r. by apply consumed_ok_final.
  - simpl. destruct (loop_body_segmented scanned w c Hw) as [Hstep Hnext].
    rewrite cons_middle, app_assoc.
    destruct (loop_body w c) as [w'|e w']; simpl in *; [by apply IH; auto|].
    by apply segmented_app.
Qed.

(** The merges of a coroutine are over runs of the chunks of its shard that
    follow one another in the order of the scan and do not overlap: no chunk
    is merged twice. *)
Theorem merges_do_not_overlap entry v :
  segmented (chunks entry)
    (merge_ranges (trace (final (merge_chunks_on_shard entry v)))).
Proof.
  destruct (merge_chunks_on_shard_cases args db shardKeyPattern target_chunk_size
              cluster shard entry v) as [->|(b & sv & ->)]; [done|].
  apply (run_loop_segmented (chunks entry) []).
  exists []. repeat split. by destruct b.
Qed.

End WorkerMore.

Section UnshardProperties.

Import Unshard.

(** The script that unshards refuses a namespace that is not sharded: it
    raises its own exception right after the lookup, and has stopped no
    balancer, merged nothing and deleted nothing. *)
Theorem unshard_refuses_unsharded_namespace namespace env db coll :
  check_is_mongos env = None ->
  split_ns namespace = Some (db, coll) ->
  collections_find_one env namespace = None ->
  main namespace env =
    ([CheckIsMongos; FindCollection namespace],
     Some (ScriptException (not_sharded_message namespace))).
Proof. intros Hmongos Hns Hdoc. unfold main. by rewrite Hmongos, Hns, Hdoc. Qed.

(** The script deletes the metadata of the collection only at the end of a
    run in which the balancer was stopped, the merge of the whole key range
    was accepted and exactly one chunk was counted after it: a trace with a
    deletion is the full trace, in this order. *)
Theorem unshard_deletes_only_after_one_chunk namespace env :
  existsb is_delete (main namespace env).1 = true ->
  exists collection,
    collections_find_one env namespace = Some collection /\
    check_is_mongos env = None /\
    balancerStop env = None /\
    mergeChunks env = None /\
    chunks_count_documents env (uuid collection) = 1 /\
    main namespace env =
      ([CheckIsMongos;
        FindCollection namespace;
        Log "Stopping balancer";
        Command_balancerStop;
        Log "Merging all chunks into one";
        Command_mergeChunks namespace (bounds_of MinKey collection)
          (bounds_of MaxKey collection);
        CountChunks (uuid collection);
        DeleteCollection namespace;
        DeleteChunks (uuid collection);
        DeleteTags namespace;
        OnEachShard_flushRoutingTableCacheUpdates namespace],
       on_each_shard env).
Proof.
  unfold main.
  destruct (check_is_mongos env); [done|].
  destruct (split_ns namespace); [|done].
  destruct (collections_find_one env namespace) as [collection|]; [|done].
  destruct (balancerStop env); [done|].
  destruct (mergeChunks env); [done|].
  destruct (chunks_count_documents env (uuid collection) =? 1) eqn:Hone; [|done].
  apply Nat.eqb_eq in Hone. intros _. exists collection. by repeat split.
Qed.

End UnshardProperties.

(** * The further properties, on the scenario *)

Section ExtraChecks.

Import Scenario.

Local Abbreviation pattern := [("x"%string, 1%Z)].

Lemma ceil_mb_least_witness :
  (Z.abs (75 * 1024 * 1024 - 1) < 2 ^ 53)%Z /\
  (75 * 1024 * 1024 - 1 <= ceil_mb (75 * 1024 * 1024 - 1) * (1024 * 1024))%Z /\
  ((ceil_mb (75 * 1024 * 1024 - 1) - 1) * (1024 * 1024) < 75 * 1024 * 1024 - 1)%Z.
Proof.
  split; [reflexivity|].
  apply (ceil_mb_least (75 * 1024 * 1024 - 1)). reflexivity.
Defined.

Lemma commit_run_passes_every_check_witness :
  exists t p,
    dryrun execute = false /\
    main execute (env 128 120 MergeOk) [] = (t, inr p) /\
    is_mongos (env 128 120 MergeOk) = true /\
    yes_no (env 128 120 MergeOk) = true /\
    (exists d, balancer_doc (env 128 120 MergeOk) = Some d /\
               mode d = "off"%string) /\
    (exists d, auto_splitter_doc (env 128 120 MergeOk) = Some d /\
               enabled d = false) /\
    (exists d, chunk_size_doc (env 128 120 MergeOk) = Some d /\
               value d = target p /\ (128 <= target p)%Z).
Proof.
  eexists _, _. split; [reflexivity|]. split; [by vm_compute|].
  eapply (commit_run_passes_every_check execute (env 128 120 MergeOk));
    [reflexivity|by vm_compute].
Defined.

Lemma declined_prompt_stops_the_run_witness :
  dryrun execute = false /\
  split_ns (ns execute) = Some ("test"%string, "coll"%string) /\
  collections_find_one env_declined (ns execute) = Some (mkCollectionDoc pattern) /\
  is_mongos env_declined = true /\
  yes_no env_declined = false /\
  main execute env_declined [] =
    ([Read (FindCollection (ns execute));
      Read (CountChunks (ns execute));
      Print (MsgCollection (ns execute) pattern 3);
      CheckIsMongos;
      Prompt],
     inl KeyboardInterrupt).
Proof.
  repeat (split; [reflexivity|]).
  apply (declined_prompt_stops_the_run execute env_declined "test" "coll"
           (mkCollectionDoc pattern)); reflexivity.
Defined.

Lemma dry_run_enforces_no_check_witness :
  dryrun plan = true /\
  split_ns (ns plan) = Some ("test"%string, "coll"%string) /\
  collections_find_one env_unchecked (ns plan) = Some (mkCollectionDoc pattern) /\
  chunk_size_doc env_unchecked = Some (mkChunksizeDoc 64) /\
  ~ (chunks_count_documents env_unchecked (ns plan) = 0 /\
     10 <= length (chunks_find env_unchecked (ns plan))) /\
  exists t p,
    main plan env_unchecked [] = (t, inr p) /\
    target p = 64%Z /\
    snapshot p = load_snapshot (chunks_find env_unchecked (ns plan)).
Proof.
  repeat (split; [reflexivity|]).
  assert (~ (chunks_count_documents env_unchecked (ns plan) = 0 /\
             10 <= length (chunks_find env_unchecked (ns plan)))) as Hcount
    by (simpl; lia).
  split; [exact Hcount|].
  apply (dry_run_enforces_no_check plan env_unchecked "test" "coll"
           (mkCollectionDoc pattern) (mkChunksizeDoc 64));
    [reflexivity..|exact Hcount].
Defined.

Lemma counter_counts_every_attempt_witness :
  exists w,
    merge_chunks_on_shard execute "test" pattern 128
      (cluster_replying 120 LockBusy) S
      {| chunks := inventory; num_merges_performed := 0 |}
      (Some (mkTimestamp 1 1)) = Normal w /\
    num_merges_performed (shard_entry w) =
      0 + length (merge_ranges (trace w)) /\
    chunks (shard_entry w) = inventory.
Proof.
  eexists. split; [by vm_compute|].
  eapply (counter_counts_every_attempt execute "test" pattern 128
            (cluster_replying 120 LockBusy) S
            {| chunks := inventory; num_merges_performed := 0 |}
            (Some (mkTimestamp 1 1))).
  by vm_compute.
Defined.

Lemma scattered_shard_is_left_alone_witness :
  scattered (chunks two_apart) /\
  shard_entry
    (final (merge_chunks_on_shard execute "test" pattern 128
              (cluster_replying 120 MergeOk) S two_apart
              (Some (mkTimestamp 1 1)))) = two_apart.
Proof.
  assert (scattered (chunks two_apart)) as Hscattered
    by (simpl; split; [discriminate|exact I]).
  split; [exact Hscattered|].
  apply (scattered_shard_is_left_alone execute "test" pattern 128
           (cluster_replying 120 MergeOk) S two_apart
           (Some (mkTimestamp 1 1)) Hscattered).
Defined.

Lemma unshard_refuses_unsharded_namespace_witness :
  Unshard.check_is_mongos UnshardScenario.env_not_sharded = None /\
  split_ns "test.coll" = Some ("test"%string, "coll"%string) /\
  Unshard.collections_find_one UnshardScenario.env_not_sharded "test.coll" = None /\
  Unshard.main "test.coll" UnshardScenario.env_not_sharded =
    ([Unshard.CheckIsMongos; Unshard.FindCollection "test.coll"],
     Some (ScriptException (Unshard.not_sharded_message "test.coll"))).
Proof.
  repeat (split; [reflexivity|]).
  apply (unshard_refuses_unsharded_namespace "test.coll"
           UnshardScenario.env_not_sharded "test" "coll"); reflexivity.
Defined.

Lemma unshard_deletes_only_after_one_chunk_witness :
  existsb Unshard.is_delete
    (Unshard.main "test.coll" UnshardScenario.env_one_chunk).1 = true /\
  exists collection,
    Unshard.collections_find_one UnshardScenario.env_one_chunk "test.coll" =
      Some collection /\
    Unshard.chunks_count_documents UnshardScenario.env_one_chunk
      (Unshard.uuid collection) = 1.
Proof.
  split; [reflexivity|].
  destruct (unshard_deletes_only_after_one_chunk "test.coll"
              UnshardScenario.env_one_chunk eq_refl)
    as (collection & Hdoc & _ & _ & _ & Hone & _).
  exists collection. by split.
Defined.

End ExtraChecks.
